(** * talk2write: the recording controller, transcript store and chat session

    A shallow embedding of [src/App.tsx] and [src/services/geminiService.ts].

    The component is an event-driven program: every handler runs to its next
    [await] without interruption, and what follows the [await] runs later as a
    separate task.  Each handler is therefore a function on [State]; an
    [async] handler is split at its [await] into the part that runs at the
    call and the continuation that runs when the awaited promise settles.  The
    outstanding continuations are part of the state. *)

From Stdlib Require Import NArith String Ascii DecimalString DecimalN.
From stdpp Require Import base list numbers.

Open Scope N_scope.

(** ** Strings

    A JavaScript string is a sequence of UTF-16 code units. *)

Definition jsstring := list N.

(** An ASCII literal of the source, as code units. *)
Definition lit (s : string) : jsstring :=
  N_of_ascii <$> list_ascii_of_string s.

(** [Number.prototype.toString] on a non-negative integer: its decimal digits. *)
Definition toString (n : N) : jsstring :=
  lit (NilEmpty.string_of_uint (N.to_uint n)).

(** The code units [String.prototype.trim] strips: ECMAScript's WhiteSpace
    and LineTerminator, all of them in the basic plane. *)
Definition isWhiteSpace (c : N) : bool :=
  ((9 <=? c) && (c <=? 13)) || (c =? 32) || (c =? 160) || (c =? 5760)
  || ((8192 <=? c) && (c <=? 8202)) || (c =? 8232) || (c =? 8233)
  || (c =? 8239) || (c =? 8287) || (c =? 12288) || (c =? 65279).

Fixpoint trimStart (s : jsstring) : jsstring :=
  match s with
  | c :: s' => if isWhiteSpace c then trimStart s' else s
  | [] => []
  end.

Definition trim (s : jsstring) : jsstring :=
  reverse (trimStart (reverse (trimStart s))).

(** [Array.prototype.join]. *)
Fixpoint join (sep : jsstring) (l : list jsstring) : jsstring :=
  match l with
  | [] => []
  | [x] => x
  | x :: l' => x ++ sep ++ join sep l'
  end.

(** A value of type [string | undefined | null] tested with [!v] or [v || d]:
    falsy when absent or empty. *)
Definition falsy (v : option jsstring) : bool :=
  match v with
  | None | Some [] => true
  | Some (_ :: _) => false
  end.

(** [v || d]. *)
Definition orElse (v : option jsstring) (d : jsstring) : jsstring :=
  match v with
  | Some (c :: s) => c :: s
  | _ => d
  end.

(** The line feed of the template literals. *)
Definition LF : jsstring := [10].

(** ** Blobs

    A [Blob] is immutable raw data with a media type; [File] is a [Blob]. *)

Record Blob := mkBlob {
  bytes : list Byte.byte;
  type : jsstring
}.

Definition size (b : Blob) : N := N.of_nat (length (bytes b)).

(** [new Blob(parts, { type })]: the parts' data, concatenated in order. *)
Definition newBlob (parts : list Blob) (ty : jsstring) : Blob :=
  mkBlob (concat (map bytes parts)) ty.

(** ** types.ts *)

Inductive AppState := IDLE | RECORDING | PAUSED | PROCESSING | ERROR.

Record TranscriptSegment := mkSegment {
  seg_id : jsstring;
  seg_text : jsstring;
  seg_timestamp : N
}.

Inductive Role := user | ai.

Record ChatMessage := mkMessage {
  msg_id : jsstring;
  msg_role : Role;
  msg_text : jsstring;
  msg_timestamp : N
}.

#[global] Instance AppState_eq_dec : EqDecision AppState.
Proof. solve_decision. Defined.

(** ** services/geminiService.ts

    Each operation awaits one remote call and post-processes what it gets.
    [Reply] is what the awaited calls produce: [Thrown] when
    [blobToBase64] or [generateContent] rejects, [Response text] when the
    call returns a response whose [text] field is [text] (absent: [None]).
    [Promise A] is how the operation itself settles. *)

Inductive Reply := Thrown | Response (text : option jsstring).

Inductive Promise (A : Type) := Fulfilled (v : A) | Rejected.
Arguments Fulfilled {A} v.
Arguments Rejected {A}.

Definition transcribeAudioToUrdu (reply : Reply) : Promise jsstring :=
  match reply with
  | Thrown => Rejected
  | Response (Some (c :: text)) => Fulfilled (trim (c :: text))
  | Response _ => Rejected (* if (!text) throw new Error(...) *)
  end.

Definition summarizeUrduContent (reply : Reply) : Promise jsstring :=
  match reply with
  | Thrown => Rejected
  | Response (Some (c :: text)) => Fulfilled (trim (c :: text))
  | Response _ => Fulfilled (lit "Could not generate summary.") (* if (!text) return ... *)
  end.

Definition chatWithTranscript (reply : Reply) : Promise jsstring :=
  match reply with
  | Thrown => Rejected
  | Response text => Fulfilled (orElse text (lit "I could not generate an answer."))
  end.

(** ** The platform: media streams and recorders

    Platform model (Media Capture and Streams, MediaStream Recording): the
    part of the browser the handlers call.  A [MediaStream] is live until its
    tracks are stopped.  A [MediaRecorder] is [inactive], [recording] or
    [paused]; [stop()] makes it inactive at once and queues the task that
    delivers the last data and then fires [stop]; until that task has run the
    recorder may still deliver data; [stop()] on an inactive recorder does
    nothing; a recorder whose stream's tracks all end is stopped the same way.
    Objects live in tables indexed by creation order, so that a ref that is
    overwritten leaves the old object in place. *)

Inductive RecordingState := inactive | recording | paused.

#[global] Instance RecordingState_eq_dec : EqDecision RecordingState.
Proof. solve_decision. Defined.

(** The only [onstop] handler the source installs: [() => resolve()] of the
    promise made in [stopAndProcess]. *)
Inductive StopHandler := resolveStop.

Record MediaRecorder := mkRecorder {
  rec_state : RecordingState;
  rec_mimeType : jsstring;
  rec_stream : nat;
  rec_onstop : option StopHandler;
  rec_stopQueued : bool
}.

Definition recSetState (st : RecordingState) (r : MediaRecorder) : MediaRecorder :=
  mkRecorder st (rec_mimeType r) (rec_stream r) (rec_onstop r) (rec_stopQueued r).

Definition recSetOnstop (h : option StopHandler) (r : MediaRecorder) : MediaRecorder :=
  mkRecorder (rec_state r) (rec_mimeType r) (rec_stream r) h (rec_stopQueued r).

Definition recSetStopQueued (q : bool) (r : MediaRecorder) : MediaRecorder :=
  mkRecorder (rec_state r) (rec_mimeType r) (rec_stream r) (rec_onstop r) q.

(** [recorder.stop()]. *)
Definition recStop (r : MediaRecorder) : MediaRecorder :=
  match rec_state r with
  | inactive => r
  | _ => recSetStopQueued true (recSetState inactive r)
  end.

(** The tracks of stream [sid] have ended. *)
Definition recTracksEnded (sid : nat) (r : MediaRecorder) : MediaRecorder :=
  if decide (rec_stream r = sid) then recStop r else r.

(** ** The component's state

    The [useState] cells, the [useRef] cells, the platform objects, and the
    suspended continuations.  [isChatOpen] and the element refs only select
    what is drawn and are left out. *)

Record State := mkState {
  (* useState *)
  appState : AppState;
  segments : list TranscriptSegment;
  summary : option jsstring;
  errorMsg : option jsstring;
  chatMessages : list ChatMessage;
  chatInput : jsstring;
  isChatLoading : bool;
  (* useRef *)
  mediaRecorderRef : option nat;
  audioChunksRef : list Blob;
  streamRef : option nat;
  (* platform objects *)
  recorders : list MediaRecorder;
  streams : list bool;
  (* suspended continuations *)
  acquiring : nat;                 (* initRecording, at getUserMedia *)
  timers : nat;                    (* setTimeout of restartRecording *)
  transcribing : list Blob;        (* processAudio, at transcribeAudioToUrdu *)
  summarizing : list (list jsstring);     (* handleSummarize, at summarizeUrduContent *)
  answering : list (jsstring * jsstring); (* handleSendMessage, at chatWithTranscript *)
  mounted : bool
}.

Definition initial : State :=
  mkState IDLE [] None None [] [] false None [] None [] [] 0 0 [] [] [] true.

Definition setAppState (v : AppState) (s : State) : State :=
  mkState v (segments s) (summary s) (errorMsg s) (chatMessages s) (chatInput s)
    (isChatLoading s) (mediaRecorderRef s) (audioChunksRef s) (streamRef s)
    (recorders s) (streams s) (acquiring s) (timers s) (transcribing s)
    (summarizing s) (answering s) (mounted s).

Definition setSegments (v : list TranscriptSegment) (s : State) : State :=
  mkState (appState s) v (summary s) (errorMsg s) (chatMessages s) (chatInput s)
    (isChatLoading s) (mediaRecorderRef s) (audioChunksRef s) (streamRef s)
    (recorders s) (streams s) (acquiring s) (timers s) (transcribing s)
    (summarizing s) (answering s) (mounted s).

Definition setSummary (v : option jsstring) (s : State) : State :=
  mkState (appState s) (segments s) v (errorMsg s) (chatMessages s) (chatInput s)
    (isChatLoading s) (mediaRecorderRef s) (audioChunksRef s) (streamRef s)
    (recorders s) (streams s) (acquiring s) (timers s) (transcribing s)
    (summarizing s) (answering s) (mounted s).

Definition setErrorMsg (v : option jsstring) (s : State) : State :=
  mkState (appState s) (segments s) (summary s) v (chatMessages s) (chatInput s)
    (isChatLoading s) (mediaRecorderRef s) (audioChunksRef s) (streamRef s)
    (recorders s) (streams s) (acquiring s) (timers s) (transcribing s)
    (summarizing s) (answering s) (mounted s).

Definition setChatMessages (v : list ChatMessage) (s : State) : State :=
  mkState (appState s) (segments s) (summary s) (errorMsg s) v (chatInput s)
    (isChatLoading s) (mediaRecorderRef s) (audioChunksRef s) (streamRef s)
    (recorders s) (streams s) (acquiring s) (timers s) (transcribing s)
    (summarizing s) (answering s) (mounted s).

Definition setChatInput (v : jsstring) (s : State) : State :=
  mkState (appState s) (segments s) (summary s) (errorMsg s) (chatMessages s) v
    (isChatLoading s) (mediaRecorderRef s) (audioChunksRef s) (streamRef s)
    (recorders s) (streams s) (acquiring s) (timers s) (transcribing s)
    (summarizing s) (answering s) (mounted s).

Definition setIsChatLoading (v : bool) (s : State) : State :=
  mkState (appState s) (segments s) (summary s) (errorMsg s) (chatMessages s)
    (chatInput s) v (mediaRecorderRef s) (audioChunksRef s) (streamRef s)
    (recorders s) (streams s) (acquiring s) (timers s) (transcribing s)
    (summarizing s) (answering s) (mounted s).

Definition setMediaRecorderRef (v : option nat) (s : State) : State :=
  mkState (appState s) (segments s) (summary s) (errorMsg s) (chatMessages s)
    (chatInput s) (isChatLoading s) v (audioChunksRef s) (streamRef s)
    (recorders s) (streams s) (acquiring s) (timers s) (transcribing s)
    (summarizing s) (answering s) (mounted s).

Definition setAudioChunksRef (v : list Blob) (s : State) : State :=
  mkState (appState s) (segments s) (summary s) (errorMsg s) (chatMessages s)
    (chatInput s) (isChatLoading s) (mediaRecorderRef s) v (streamRef s)
    (recorders s) (streams s) (acquiring s) (timers s) (transcribing s)
    (summarizing s) (answering s) (mounted s).

Definition setStreamRef (v : option nat) (s : State) : State :=
  mkState (appState s) (segments s) (summary s) (errorMsg s) (chatMessages s)
    (chatInput s) (isChatLoading s) (mediaRecorderRef s) (audioChunksRef s) v
    (recorders s) (streams s) (acquiring s) (timers s) (transcribing s)
    (summarizing s) (answering s) (mounted s).

Definition setRecorders (v : list MediaRecorder) (s : State) : State :=
  mkState (appState s) (segments s) (summary s) (errorMsg s) (chatMessages s)
    (chatInput s) (isChatLoading s) (mediaRecorderRef s) (audioChunksRef s)
    (streamRef s) v (streams s) (acquiring s) (timers s) (transcribing s)
    (summarizing s) (answering s) (mounted s).

Definition setStreams (v : list bool) (s : State) : State :=
  mkState (appState s) (segments s) (summary s) (errorMsg s) (chatMessages s)
    (chatInput s) (isChatLoading s) (mediaRecorderRef s) (audioChunksRef s)
    (streamRef s) (recorders s) v (acquiring s) (timers s) (transcribing s)
    (summarizing s) (answering s) (mounted s).

Definition setAcquiring (v : nat) (s : State) : State :=
  mkState (appState s) (segments s) (summary s) (errorMsg s) (chatMessages s)
    (chatInput s) (isChatLoading s) (mediaRecorderRef s) (audioChunksRef s)
    (streamRef s) (recorders s) (streams s) v (timers s) (transcribing s)
    (summarizing s) (answering s) (mounted s).

Definition setTimers (v : nat) (s : State) : State :=
  mkState (appState s) (segments s) (summary s) (errorMsg s) (chatMessages s)
    (chatInput s) (isChatLoading s) (mediaRecorderRef s) (audioChunksRef s)
    (streamRef s) (recorders s) (streams s) (acquiring s) v (transcribing s)
    (summarizing s) (answering s) (mounted s).

Definition setTranscribing (v : list Blob) (s : State) : State :=
  mkState (appState s) (segments s) (summary s) (errorMsg s) (chatMessages s)
    (chatInput s) (isChatLoading s) (mediaRecorderRef s) (audioChunksRef s)
    (streamRef s) (recorders s) (streams s) (acquiring s) (timers s) v
    (summarizing s) (answering s) (mounted s).

Definition setSummarizing (v : list (list jsstring)) (s : State) : State :=
  mkState (appState s) (segments s) (summary s) (errorMsg s) (chatMessages s)
    (chatInput s) (isChatLoading s) (mediaRecorderRef s) (audioChunksRef s)
    (streamRef s) (recorders s) (streams s) (acquiring s) (timers s)
    (transcribing s) v (answering s) (mounted s).

Definition setAnswering (v : list (jsstring * jsstring)) (s : State) : State :=
  mkState (appState s) (segments s) (summary s) (errorMsg s) (chatMessages s)
    (chatInput s) (isChatLoading s) (mediaRecorderRef s) (audioChunksRef s)
    (streamRef s) (recorders s) (streams s) (acquiring s) (timers s)
    (transcribing s) (summarizing s) v (mounted s).

Definition setMounted (v : bool) (s : State) : State :=
  mkState (appState s) (segments s) (summary s) (errorMsg s) (chatMessages s)
    (chatInput s) (isChatLoading s) (mediaRecorderRef s) (audioChunksRef s)
    (streamRef s) (recorders s) (streams s) (acquiring s) (timers s)
    (transcribing s) (summarizing s) (answering s) v.

(** The recorder [mediaRecorderRef.current] points at, if any. *)
Definition currentRecorder (s : State) : option MediaRecorder :=
  match mediaRecorderRef s with
  | Some r => recorders s !! r
  | None => None
  end.

(** Apply [f] to the recorder [mediaRecorderRef.current] points at. *)
Definition onCurrentRecorder (f : MediaRecorder -> MediaRecorder) (s : State) : State :=
  match mediaRecorderRef s with
  | Some r => setRecorders (alter f r (recorders s)) s
  | None => s
  end.

(** [stream.getTracks().forEach(track => track.stop())] on stream [sid]. *)
Definition stopTracks (sid : nat) (s : State) : State :=
  setRecorders (recTracksEnded sid <$> recorders s)
    (setStreams (<[sid := false]> (streams s)) s).

(** [if (streamRef.current) streamRef.current.getTracks().forEach(...)]. *)
Definition releaseStream (s : State) : State :=
  match streamRef s with
  | Some sid => stopTracks sid s
  | None => s
  end.

(** ** App.tsx: the recording controller *)

(** [initRecording], up to [await navigator.mediaDevices.getUserMedia(...)]. *)
Definition initRecording (s : State) : State :=
  setAcquiring (S (acquiring s)) (releaseStream (setErrorMsg None s)).

(** The [catch] block of [initRecording]. *)
Definition initRecording_catch (s : State) : State :=
  setAppState ERROR (setErrorMsg (Some (lit "Could not access microphone.")) s).

(** [initRecording], after [getUserMedia] resolved with a new live stream.
    [webmOpus] is what [MediaRecorder.isTypeSupported('audio/webm;codecs=opus')]
    answers; [mp4] tells whether the platform records ['audio/mp4'], the
    constructor throwing otherwise. *)
Definition initRecording_granted (webmOpus mp4 : bool) (s : State) : State :=
  let sid := length (streams s) in
  let s := setStreamRef (Some sid) (setStreams (streams s ++ [true]) s) in
  let mimeType :=
    if webmOpus then lit "audio/webm;codecs=opus" else lit "audio/mp4" in
  if webmOpus || mp4 then
    let rid := length (recorders s) in
    let mediaRecorder := mkRecorder inactive mimeType sid None false in
    let s := setRecorders (recorders s ++ [mediaRecorder]) s in
    let s := setMediaRecorderRef (Some rid) s in
    let s := setAudioChunksRef [] s in
    let s := onCurrentRecorder (recSetState recording) s in (* start() *)
    setAppState RECORDING s
  else initRecording_catch s.

(** [mediaRecorder.ondataavailable]. *)
Definition ondataavailable (data : Blob) (s : State) : State :=
  if 0 <? size data then setAudioChunksRef (audioChunksRef s ++ [data]) s
  else s.

Definition pauseRecording (s : State) : State :=
  match currentRecorder s with
  | Some r =>
      if decide (rec_state r = recording)
      then setAppState PAUSED (onCurrentRecorder (recSetState paused) s)
      else s
  | None => s
  end.

Definition resumeRecording (s : State) : State :=
  match currentRecorder s with
  | Some r =>
      if decide (rec_state r = paused)
      then setAppState RECORDING (onCurrentRecorder (recSetState recording) s)
      else s
  | None => s
  end.

(** [onstop = null; stop(); audioChunksRef.current = []], the body shared by
    [cancelRecording] and [restartRecording]. *)
Definition discardRecording (s : State) : State :=
  setAudioChunksRef []
    (onCurrentRecorder recStop (onCurrentRecorder (recSetOnstop None) s)).

Definition cancelRecording (s : State) : State :=
  match mediaRecorderRef s with
  | Some _ => setAppState IDLE (discardRecording s)
  | None => s
  end.

Definition restartRecording (s : State) : State :=
  let s :=
    match mediaRecorderRef s with
    | Some _ => discardRecording s
    | None => s
    end in
  setTimers (S (timers s)) (setAppState IDLE s).

(** [stopAndProcess]: the promise's executor runs at once; its [then]
    callback is [stopAndProcess_then], run when [onstop] resolves it. *)
Definition stopAndProcess (s : State) : State :=
  match mediaRecorderRef s with
  | None => s
  | Some _ =>
      setAppState PROCESSING
        (onCurrentRecorder recStop
           (onCurrentRecorder (recSetOnstop (Some resolveStop)) s))
  end.

(** [processAudio], up to [await transcribeAudioToUrdu(blob)]. *)
Definition processAudio (blob : Blob) (s : State) : State :=
  setTranscribing (transcribing s ++ [blob]) (setErrorMsg None s).

(** [processAudio], after the transcription settled; [idNow] and [tsNow] are
    what the two calls of [Date.now()] return. *)
Definition processAudio_settled (p : Promise jsstring) (idNow tsNow : N)
    (s : State) : State :=
  match p with
  | Fulfilled text =>
      let newSegment := mkSegment (toString idNow) text tsNow in
      setAppState IDLE (setSegments (segments s ++ [newSegment]) s)
  | Rejected =>
      setAppState IDLE
        (setErrorMsg
           (Some (lit "Transcription failed. Please try again or check file format."))
           s)
  end.

(** The audio object [stopAndProcess] builds:
    [new Blob(audioChunksRef.current, { type: mimeType })]. *)
Definition audioBlob (s : State) : Blob :=
  let mimeType :=
    orElse (rec_mimeType <$> currentRecorder s) (lit "audio/webm") in
  newBlob (audioChunksRef s) mimeType.

Definition stopAndProcess_then (s : State) : State :=
  processAudio (audioBlob s) s.

(** The queued stop task of recorder [rid] fires [stop]. *)
Definition onstop (rid : nat) (s : State) : State :=
  match recorders s !! rid with
  | Some r =>
      let s := setRecorders (alter (recSetStopQueued false) rid (recorders s)) s in
      match rec_onstop r with
      | Some resolveStop => stopAndProcess_then s
      | None => s
      end
  | None => s
  end.

(** [file] is [event.target.files?.[0]]. *)
Definition handleFileUpload (file : option Blob) (s : State) : State :=
  match file with
  | None => s
  | Some file =>
      if 500 * 1024 * 1024 <? size file
      then setErrorMsg (Some (lit "File too large. Max 500MB allowed.")) s
      else processAudio file (setAppState PROCESSING s)
  end.

(** The unmount cleanup effect. *)
Definition unmount (s : State) : State :=
  setMounted false (releaseStream s).

(** ** App.tsx: the transcript store *)

(** [handleSummarize], up to [await summarizeUrduContent(textArray)]. *)
Definition handleSummarize (s : State) : State :=
  match segments s with
  | [] => s
  | _ :: _ =>
      let textArray := seg_text <$> segments s in
      setSummarizing (summarizing s ++ [textArray]) (setAppState PROCESSING s)
  end.

(** [handleSummarize], after the call settled: [try], [catch], [finally]. *)
Definition handleSummarize_settled (p : Promise jsstring) (s : State) : State :=
  setAppState IDLE
    match p with
    | Fulfilled summaryText => setSummary (Some summaryText) s
    | Rejected => setErrorMsg (Some (lit "Summarization failed.")) s
    end.

Definition handleDeleteSegment (id : jsstring) (s : State) : State :=
  setSegments (filter (λ x, seg_id x ≠ id) (segments s)) s.

(** The "Clear All" button; [confirmed] is what [window.confirm] answers. *)
Definition clearAll (confirmed : bool) (s : State) : State :=
  if confirmed
  then setChatMessages [] (setSummary None (setSegments [] s))
  else s.

(** ** App.tsx: the chat session *)

(** The context [handleSendMessage] builds from the store. *)
Definition chatContext (s : State) : jsstring :=
  let allText := join LF (seg_text <$> segments s) in
  match summary s with
  | Some (c :: sm) =>
      lit "Summary: " ++ (c :: sm) ++ LF ++ LF ++ lit "Transcripts:" ++ LF ++ allText
  | _ => allText
  end.

(** [handleSendMessage], up to [await chatWithTranscript(...)]. *)
Definition handleSendMessage (idNow tsNow : N) (s : State) : State :=
  if falsy (Some (trim (chatInput s))) || isChatLoading s then s
  else
    let userMsg := mkMessage (toString idNow) user (chatInput s) tsNow in
    let s' := setChatMessages (chatMessages s ++ [userMsg]) s in
    let s' := setChatInput [] s' in
    let s' := setIsChatLoading true s' in
    setAnswering (answering s ++ [(chatContext s, msg_text userMsg)]) s'.

(** [handleSendMessage], after the call settled. *)
Definition handleSendMessage_settled (p : Promise jsstring) (idNow tsNow : N)
    (s : State) : State :=
  let text :=
    match p with
    | Fulfilled responseText => responseText
    | Rejected => lit "Sorry, I couldn't process that question right now."
    end in
  let aiMsg := mkMessage (toString (idNow + 1)) ai text tsNow in
  setIsChatLoading false (setChatMessages (chatMessages s ++ [aiMsg]) s).

(** ** Events

    What can happen to the component: the user operates a control that is
    drawn, or the platform runs a callback it owes.  [step] runs the handler;
    [enabled] tells whether the event can occur, following the conditions
    under which the JSX draws (and enables) each control.  An event whose
    handler reads the clock carries the readings: [idNow] is what
    [Date.now()] returns for the id, [tsNow] for the timestamp.  A settled
    call names the suspended continuation it resumes by its position [i].
    After the unmount nothing occurs any more. *)

Inductive Event :=
  (* controls *)
  | ClickStart | ClickPause | ClickResume
  | ClickCancel | ClickRestart | ClickFinish
  | FileChosen (file : option Blob)
  | ClickSummarize
  | ClickDelete (id : jsstring)
  | ClickClearAll (confirmed : bool)
  | ClickDismissSummary
  | ChatTyped (text : jsstring)
  | ChatSubmitted (idNow tsNow : N)
  | Unmounted
  (* platform callbacks *)
  | MicGranted (webmOpus mp4 : bool)
  | MicDenied
  | TimerFired
  | DataAvailable (rid : nat) (data : Blob)
  | RecorderStopped (rid : nat)
  | TranscriptionSettled (i : nat) (reply : Reply) (idNow tsNow : N)
  | SummarySettled (i : nat) (reply : Reply)
  | AnswerSettled (i : nat) (reply : Reply) (idNow tsNow : N).

Definition step (e : Event) (s : State) : State :=
  match e with
  | ClickStart => initRecording s
  | ClickPause => pauseRecording s
  | ClickResume => resumeRecording s
  | ClickCancel => cancelRecording s
  | ClickRestart => restartRecording s
  | ClickFinish => stopAndProcess s
  | FileChosen file => handleFileUpload file s
  | ClickSummarize => handleSummarize s
  | ClickDelete id => handleDeleteSegment id s
  | ClickClearAll confirmed => clearAll confirmed s
  | ClickDismissSummary => setSummary None s
  | ChatTyped text => setChatInput text s
  | ChatSubmitted idNow tsNow => handleSendMessage idNow tsNow s
  | Unmounted => unmount s
  | MicGranted webmOpus mp4 =>
      initRecording_granted webmOpus mp4 (setAcquiring (pred (acquiring s)) s)
  | MicDenied => initRecording_catch (setAcquiring (pred (acquiring s)) s)
  | TimerFired => initRecording (setTimers (pred (timers s)) s)
  | DataAvailable _ data => ondataavailable data s
  | RecorderStopped rid => onstop rid s
  | TranscriptionSettled i reply idNow tsNow =>
      processAudio_settled (transcribeAudioToUrdu reply) idNow tsNow
        (setTranscribing (delete i (transcribing s)) s)
  | SummarySettled i reply =>
      handleSummarize_settled (summarizeUrduContent reply)
        (setSummarizing (delete i (summarizing s)) s)
  | AnswerSettled i reply idNow tsNow =>
      handleSendMessage_settled (chatWithTranscript reply) idNow tsNow
        (setAnswering (delete i (answering s)) s)
  end.

Definition isRecording (s : State) : bool := bool_decide (appState s = RECORDING).
Definition isPaused (s : State) : bool := bool_decide (appState s = PAUSED).
Definition isProcessing (s : State) : bool := bool_decide (appState s = PROCESSING).

Definition hasContent (s : State) : bool :=
  negb (bool_decide (segments s = [])) || negb (falsy (summary s)).

(** Recorder [rid] has not finished stopping: it can still deliver data. *)
Definition delivering (rid : nat) (s : State) : bool :=
  match recorders s !! rid with
  | Some r => negb (bool_decide (rec_state r = inactive)) || rec_stopQueued r
  | None => false
  end.

Definition stopQueued (rid : nat) (s : State) : bool :=
  match recorders s !! rid with
  | Some r => rec_stopQueued r
  | None => false
  end.

Definition enabled (s : State) (e : Event) : bool :=
  mounted s &&
  match e with
  | ClickStart | FileChosen _ =>
      negb (isRecording s) && negb (isPaused s) && negb (isProcessing s)
  | ClickPause => isRecording s
  | ClickResume => negb (isRecording s) && isPaused s
  | ClickCancel | ClickRestart | ClickFinish => isRecording s || isPaused s
  | ClickSummarize =>
      hasContent s && negb (isRecording s) && negb (isPaused s)
      && negb (isProcessing s)
  | ClickDelete id => bool_decide (id ∈ seg_id <$> segments s)
  | ClickClearAll _ => hasContent s
  | ClickDismissSummary => negb (falsy (summary s))
  | ChatTyped _ | ChatSubmitted _ _ | Unmounted => true
  | MicGranted _ _ | MicDenied => bool_decide (acquiring s ≠ 0%nat)
  | TimerFired => bool_decide (timers s ≠ 0%nat)
  | DataAvailable rid _ => delivering rid s
  | RecorderStopped rid => stopQueued rid s
  | TranscriptionSettled i _ _ _ => bool_decide (i < length (transcribing s))%nat
  | SummarySettled i _ => bool_decide (i < length (summarizing s))%nat
  | AnswerSettled i _ _ _ => bool_decide (i < length (answering s))%nat
  end.

(** The states the component can be in. *)
Inductive reachable : State -> Prop :=
  | reachable_initial : reachable initial
  | reachable_step s e :
      reachable s -> enabled s e = true -> reachable (step e s).

(** Run a trace, refusing an event that cannot occur. *)
Fixpoint run (evs : list Event) (s : State) : option State :=
  match evs with
  | [] => Some s
  | e :: evs' => if enabled s e then run evs' (step e s) else None
  end.

(** Run the handlers of a trace one after the other. *)
Definition exec (evs : list Event) (s : State) : State :=
  foldl (λ s e, step e s) s evs.

(** The chunks a trace delivers, in delivery order. *)
Definition delivered (evs : list Event) : list Blob :=
  omap (λ e, match e with DataAvailable _ data => Some data | _ => None end) evs.

(** The events of one recording on recorder [r]: the user pauses and
    resumes, the recorder delivers chunks. *)
Inductive duringRecording (r : nat) : Event -> Prop :=
  | during_pause : duringRecording r ClickPause
  | during_resume : duringRecording r ClickResume
  | during_data data : duringRecording r (DataAvailable r data).

(** What recorder [r] still does once it was told to stop. *)
Inductive afterStop (r : nat) : Event -> Prop :=
  | after_data data : afterStop r (DataAvailable r data)
  | after_stopped : afterStop r (RecorderStopped r).

(** The stream [streamRef.current] points at is live. *)
Definition deviceOpen (s : State) : bool :=
  match streamRef s with
  | Some sid => bool_decide (streams s !! sid = Some true)
  | None => false
  end.

(** The events whose handler stops the tracks of the held stream: a Start
    beginning (clicked, or run by Restart's timer) and the unmount. *)
Definition releasesDevice (e : Event) : bool :=
  match e with
  | ClickStart | TimerFired | Unmounted => true
  | _ => false
  end.

(** The event that opens a stream: the microphone being granted. *)
Definition acquiresDevice (e : Event) : bool :=
  match e with
  | MicGranted _ _ => true
  | _ => false
  end.

(** What holds of the refs and tables in every reachable state: a ref that
    is set points into its table; a recording phase has a recorder; the
    recorder ref is set once a recorder exists, and the stream ref once the
    recorder ref is; chunks are buffered only once a recorder exists; a
    question is outstanding exactly while the chat is loading. *)
Record wellFormed (s : State) : Prop := {
  wf_recorder : forall r, mediaRecorderRef s = Some r -> is_Some (recorders s !! r);
  wf_stream : forall sid, streamRef s = Some sid -> is_Some (streams s !! sid);
  wf_phase : appState s = RECORDING \/ appState s = PAUSED ->
             is_Some (mediaRecorderRef s);
  wf_first : recorders s = [] \/ is_Some (mediaRecorderRef s);
  wf_held : is_Some (mediaRecorderRef s) -> is_Some (streamRef s);
  wf_buffer : audioChunksRef s = [] \/ is_Some (mediaRecorderRef s);
  wf_chat : length (answering s) = if isChatLoading s then 1%nat else 0%nat
}.

(** ** App.tsx: export *)

(** [`Segment ${i+1}:\n${s.text}`], for the segment at index [i]. *)
Definition exportSegment (i : nat) (x : TranscriptSegment) : jsstring :=
  lit "Segment " ++ toString (N.of_nat i + 1) ++ lit ":" ++ LF ++ seg_text x.

(** [fullContent] of [handleExport]. *)
Definition exportContent (s : State) : jsstring :=
  let allText := join (LF ++ LF) (imap exportSegment (segments s)) in
  match summary s with
  | Some (c :: sm) =>
      lit "--- SUMMARY ---" ++ LF ++ (c :: sm) ++ LF ++ LF
      ++ lit "--- TRANSCRIPTS ---" ++ LF ++ allText
  | _ => allText
  end.

(** Where [handleExport] sends the text: [navigator.share], or the
    clipboard when the platform has no share. *)
Inductive Exported :=
  | Shared (title text : jsstring)
  | Copied (text : jsstring).

(** [canShare] tells whether [navigator.share] exists; a share that rejects
    is caught and changes nothing. *)
Definition handleExport (canShare : bool) (s : State) : Exported :=
  if canShare then Shared (lit "Urdu Voice Transcript") (exportContent s)
  else Copied (exportContent s).

(** ** Vocabulary of the further properties *)

(** [s] does not begin with white space. *)
Definition startsClean (s : jsstring) : bool :=
  match s with
  | c :: _ => negb (isWhiteSpace c)
  | [] => true
  end.

(** [s] neither begins nor ends with white space. *)
Definition isTrimmed (s : jsstring) : bool :=
  startsClean s && startsClean (reverse s).

(** [s] is white space only. *)
Definition blank (s : jsstring) : Prop := Forall (λ c, isWhiteSpace c = true) s.

(** A recorder that is inactive and has fired its stop. *)
Definition finished (rc : MediaRecorder) : Prop :=
  rec_state rc = inactive /\ rec_stopQueued rc = false.

(** The two media types [initRecording] chooses between. *)
Definition recordedType (ty : jsstring) : Prop :=
  ty = lit "audio/webm;codecs=opus" \/ ty = lit "audio/mp4".

(** The clock readings a trace gives to new segments, in order. *)
Definition segmentClock (evs : list Event) : list N :=
  omap (λ e, match e with
             | TranscriptionSettled _ _ idNow _ => Some idNow
             | _ => None
             end) evs.

(** Every reading is at least [b] and larger than the one before. *)
Fixpoint increasingFrom (b : N) (l : list N) : Prop :=
  match l with
  | [] => True
  | n :: l' => b <= n /\ increasingFrom (n + 1) l'
  end.

(** The controls and callbacks of the store and the chat. *)
Definition storeOrChat (e : Event) : Prop :=
  match e with
  | ClickDelete _ | ClickClearAll _ | ClickDismissSummary
  | ChatTyped _ | ChatSubmitted _ _ | AnswerSettled _ _ _ _ => True
  | _ => False
  end.

(** ** Sample data

    Chunks, files and traces the examples below run the handlers on. *)

Definition opus : jsstring := lit "audio/webm;codecs=opus".

Definition chunk1 : Blob := mkBlob [Byte.x1a; Byte.x45; Byte.xdf] opus.
Definition chunk2 : Blob := mkBlob [Byte.xa3; Byte.x42] opus.
Definition chunk3 : Blob := mkBlob [Byte.x86] opus.
Definition emptyChunk : Blob := mkBlob [] opus.

(** A file of 600 MiB, and one of 3 bytes. *)
Definition oversizedFile : Blob :=
  mkBlob (replicate (N.to_nat 629145600) Byte.x00) (lit "video/mp4").

Definition smallFile : Blob :=
  mkBlob [Byte.x49; Byte.x44; Byte.x33] (lit "audio/mpeg").

(** Start, microphone granted, on a platform that records Opus. *)
Definition startTrace : list Event := [ClickStart; MicGranted true false].

(** The recorder that [startTrace] creates. *)
Definition firstRecorder : MediaRecorder := mkRecorder recording opus 0 None false.

(** A recording whose only chunk arrives with the stop, finalized and
    transcribed. *)
Definition finalizeTrace : list Event :=
  startTrace
  ++ [ClickFinish; DataAvailable 0 chunk1; RecorderStopped 0;
      TranscriptionSettled 0 (Response (Some (lit "salam")))
        1700000000000 1700000000000].

(** A recording cancelled. *)
Definition cancelTrace : list Event := startTrace ++ [ClickCancel].

(** An upload transcribed, then summarized; the summary call answers
    without a text. *)
Definition emptySummaryTrace : list Event :=
  [FileChosen (Some smallFile);
   TranscriptionSettled 0 (Response (Some (lit "salam")))
     1700000000000 1700000000000;
   ClickSummarize;
   SummarySettled 0 (Response None)].

(** An upload while the microphone prompt is open, then the recording,
    finalized; both transcriptions settle within the same millisecond. *)
Definition sameClockTrace : list Event :=
  [ClickStart; FileChosen (Some smallFile); MicGranted true false;
   ClickFinish; DataAvailable 0 chunk1; RecorderStopped 0;
   TranscriptionSettled 0 (Response (Some (lit "first")))
     1700000000000 1700000000000;
   TranscriptionSettled 0 (Response (Some (lit "second")))
     1700000000000 1700000000000].

(** The events that leave a question outstanding: anything but its answer
    and a confirmed "Clear All". *)
Definition keepsQuestion (e : Event) : Prop :=
  match e with
  | ClickClearAll true | AnswerSettled _ _ _ _ => False
  | _ => True
  end.

(** The events that leave a question outstanding and may empty the log:
    anything but its answer. *)
Definition awaitsAnswer (e : Event) : Prop :=
  match e with
  | AnswerSettled _ _ _ _ => False
  | _ => True
  end.

(** A question asked after one transcription, "Clear All" confirmed while
    the answer is outstanding, then the answer. *)
Definition clearedQuestionTrace : list Event :=
  [FileChosen (Some smallFile);
   TranscriptionSettled 0 (Response (Some (lit "salam")))
     1700000000000 1700000000000;
   ChatTyped (lit "What was discussed?");
   ChatSubmitted 1700000000100 1700000000100;
   ClickClearAll true;
   AnswerSettled 0 (Response (Some (lit "jawab"))) 1700000000900 1700000000900].

(** A question typed after one transcription. *)
Definition questionTrace : list Event :=
  [FileChosen (Some smallFile);
   TranscriptionSettled 0 (Response (Some (lit "salam")))
     1700000000000 1700000000000;
   ChatTyped (lit "What was discussed?")].

(** * Properties *)

Create HintDb handlers.
#[local] Hint Unfold step initRecording initRecording_granted initRecording_catch
  ondataavailable pauseRecording resumeRecording cancelRecording
  restartRecording discardRecording stopAndProcess stopAndProcess_then
  processAudio processAudio_settled onstop handleFileUpload unmount
  handleSummarize handleSummarize_settled handleDeleteSegment clearAll
  handleSendMessage handleSendMessage_settled releaseStream stopTracks
  onCurrentRecorder currentRecorder : handlers.

Ltac unfold_handlers := autounfold with handlers in *.

(** Split on every test a handler makes. *)
Ltac handler_cases :=
  unfold_handlers; simpl in *;
  repeat (case_match; simpl in *; simplify_eq; try done);
  try done.

(** Settle a closed goal by running the handlers. *)
Ltac by_running := vm_compute; repeat split; reflexivity.

Lemma run_reachable evs s s' :
  reachable s -> run evs s = Some s' -> reachable s'.
Proof.
  revert s; induction evs as [|e evs IH]; simpl; intros s Hs Hrun.
  - by simplify_eq.
  - destruct (enabled s e) eqn:He; [|done].
    eapply IH; [|done]. by constructor.
Qed.

Lemma exec_app evs1 evs2 s :
  exec (evs1 ++ evs2) s = exec evs2 (exec evs1 s).
Proof. apply foldl_app. Qed.

(** ** The chunk buffer *)

Lemma chunks_step e s :
  Forall (λ c, 0 < size c) (audioChunksRef s) ->
  Forall (λ c, 0 < size c) (audioChunksRef (step e s)).
Proof.
  intros H. destruct e; handler_cases; try by constructor.
  apply Forall_app; split; [done|].
  repeat constructor. by apply N.ltb_lt.
Qed.

Ltac table_sizes :=
  rewrite ?lookup_lt_is_Some in *;
  rewrite ?length_alter, ?length_fmap, ?length_app, ?length_insert in *;
  simpl in *; try lia.

Ltac wf_finish :=
  intros; simplify_eq;
  repeat match goal with
    | H : _ \/ _ |- _ => destruct H
    | H : forall r, Some _ = Some r -> _ |- _ => specialize (H _ eq_refl)
    | H : forall r, ?x = Some r -> _, E : ?x = Some _ |- _ => specialize (H _ E)
    | H : is_Some (Some ?n) -> _ |- _ => specialize (H (mk_is_Some (Some n) n eq_refl))
    end;
  simplify_eq;
  try done;
  try (right; by eexists);
  try (right; done);
  try (left; by subst);
  try (by eexists);
  try (table_sizes; fail).

Lemma wellFormed_initial : wellFormed initial.
Proof.
  split; simpl; try done; try by left.
  by intros [|].
Qed.

Lemma wellFormed_step e s :
  wellFormed s -> enabled s e = true -> wellFormed (step e s).
Proof.
  intros [Hrec Hstr Hph Hfirst Hheld Hbuf Hchat] Hen.
  destruct s; simpl in *.
  destruct e.
  all: split.
  all: handler_cases.
  all: try (wf_finish; fail).
  - (* a chunk arrives: some recorder exists *)
    apply andb_prop in Hen as [_ Hen]. unfold delivering in Hen; simpl in Hen.
    destruct Hfirst as [->|]; [by rewrite lookup_nil in Hen|by right].
  - apply andb_prop in Hen as [_ Hen]. unfold delivering in Hen; simpl in Hen.
    destruct Hfirst as [->|]; [by rewrite lookup_nil in Hen|by right].
  - (* the one outstanding answer arrives *)
    apply andb_prop in Hen as [_ Hen%bool_decide_eq_true].
    destruct answering0 as [|? [|]]; simplify_eq/=.
    destruct i; [done|simpl in *; lia].
  - apply andb_prop in Hen as [_ Hen%bool_decide_eq_true].
    destruct answering0 as [|? [|]]; simplify_eq/=.
    destruct i; [done|simpl in *; lia].
Qed.

Lemma reachable_wellFormed s : reachable s -> wellFormed s.
Proof.
  induction 1; eauto using wellFormed_initial, wellFormed_step.
Qed.

(** ** One recording, from Start to the stop signal *)

Lemma exec_cons e evs s : exec (e :: evs) s = exec evs (step e s).
Proof. done. Qed.

Lemma delivered_app evs1 evs2 :
  delivered (evs1 ++ evs2) = delivered evs1 ++ delivered evs2.
Proof. apply omap_app. Qed.

(** An empty chunk adds nothing to a blob. *)
Lemma newBlob_filter parts ty :
  newBlob (filter (λ c, 0 < size c) parts) ty = newBlob parts ty.
Proof.
  unfold newBlob; f_equal.
  induction parts as [|c parts IH]; [done|].
  rewrite filter_cons. destruct (decide (0 < size c)) as [|Hz]; simpl.
  - by rewrite IH.
  - rewrite IH. unfold size in Hz.
    destruct (bytes c); [done|]. simpl in Hz. lia.
Qed.

(** Pausing, resuming and delivering leave everything about recorder [r]
    but its state as it was, and append the non-empty chunks. *)
Lemma during_step r e s rc :
  duringRecording r e ->
  mediaRecorderRef s = Some r ->
  recorders s !! r = Some rc ->
  exists rc',
    mediaRecorderRef (step e s) = Some r
    /\ recorders (step e s) !! r = Some rc'
    /\ rec_mimeType rc' = rec_mimeType rc
    /\ rec_onstop rc' = rec_onstop rc
    /\ rec_stopQueued rc' = rec_stopQueued rc
    /\ (rec_state rc = inactive <-> rec_state rc' = inactive)
    /\ audioChunksRef (step e s)
       = audioChunksRef s ++ filter (λ c, 0 < size c) (delivered [e]).
Proof.
  intros He Href Hrc. destruct s; simpl in *; subst.
  destruct He; unfold_handlers; simpl; rewrite ?Hrc; simpl.
  - destruct (decide (rec_state rc = recording)) as [Hst|]; simpl.
    + exists (recSetState paused rc). rewrite list_lookup_alter_eq, Hrc.
      rewrite app_nil_r, Hst. by repeat split.
    + exists rc. rewrite app_nil_r. by repeat split.
  - destruct (decide (rec_state rc = paused)) as [Hst|]; simpl.
    + exists (recSetState recording rc). rewrite list_lookup_alter_eq, Hrc.
      rewrite app_nil_r, Hst. by repeat split.
    + exists rc. rewrite app_nil_r. by repeat split.
  - exists rc. rewrite filter_cons, filter_nil.
    destruct (decide (0 < size data)) as [Hpos|Hz].
    + apply N.ltb_lt in Hpos as ->. by repeat split.
    + apply N.ltb_nlt in Hz as ->. simpl. rewrite app_nil_r. by repeat split.
Qed.

Lemma during_exec r evs : forall s rc,
  Forall (duringRecording r) evs ->
  mediaRecorderRef s = Some r ->
  recorders s !! r = Some rc ->
  exists rc',
    mediaRecorderRef (exec evs s) = Some r
    /\ recorders (exec evs s) !! r = Some rc'
    /\ rec_mimeType rc' = rec_mimeType rc
    /\ rec_onstop rc' = rec_onstop rc
    /\ rec_stopQueued rc' = rec_stopQueued rc
    /\ (rec_state rc = inactive <-> rec_state rc' = inactive)
    /\ audioChunksRef (exec evs s)
       = audioChunksRef s ++ filter (λ c, 0 < size c) (delivered evs).
Proof.
  induction evs as [|e evs IH]; intros s rc Hall Href Hrc.
  - exists rc. simpl. rewrite app_nil_r. by repeat split.
  - inversion Hall as [|? ? He Hall']; subst; clear Hall.
    destruct (during_step r e s rc He Href Hrc)
      as (rc1 & Href1 & Hrc1 & Hm1 & Ho1 & Hq1 & Hs1 & Hb1).
    destruct (IH (step e s) rc1 Hall' Href1 Hrc1)
      as (rc2 & Href2 & Hrc2 & Hm2 & Ho2 & Hq2 & Hs2 & Hb2).
    exists rc2. rewrite exec_cons. repeat split; try congruence; try tauto.
    rewrite Hb2, Hb1, <- app_assoc, <- list.filter_app.
    by rewrite <- delivered_app.
Qed.

Lemma stopAndProcess_recorder r s rc :
  mediaRecorderRef s = Some r ->
  recorders s !! r = Some rc ->
  exists rc',
    mediaRecorderRef (stopAndProcess s) = Some r
    /\ recorders (stopAndProcess s) !! r = Some rc'
    /\ rec_mimeType rc' = rec_mimeType rc
    /\ rec_onstop rc' = Some resolveStop
    /\ (rec_state rc <> inactive -> rec_stopQueued rc' = true)
    /\ audioChunksRef (stopAndProcess s) = audioChunksRef s.
Proof.
  intros Href Hrc. destruct s; simpl in *; subst.
  unfold_handlers; simpl.
  exists (recStop (recSetOnstop (Some resolveStop) rc)).
  rewrite !list_lookup_alter_eq, Hrc. simpl.
  unfold recStop; simpl. by destruct (rec_state rc).
Qed.

Lemma onstop_resolves r s rc :
  mediaRecorderRef s = Some r ->
  recorders s !! r = Some rc ->
  rec_onstop rc = Some resolveStop ->
  transcribing (onstop r s)
  = transcribing s
    ++ [newBlob (audioChunksRef s)
          (orElse (Some (rec_mimeType rc)) (lit "audio/webm"))]
  /\ audioChunksRef (onstop r s) = audioChunksRef s.
Proof.
  intros Href Hrc Hon. destruct s; simpl in *; subst.
  unfold onstop; simpl. rewrite Hrc, Hon.
  unfold stopAndProcess_then, processAudio, audioBlob, currentRecorder; simpl.
  by rewrite list_lookup_alter_eq, Hrc.
Qed.

(** Pausing, resuming, delivering and asking to stop hand nothing to the
    transcription. *)
Lemma transcribing_quiet r evs : forall s,
  Forall (λ e, duringRecording r e \/ e = ClickFinish) evs ->
  transcribing (exec evs s) = transcribing s.
Proof.
  induction evs as [|e evs IH]; intros s Hall; [done|].
  inversion Hall as [|? ? He Hall']; subst; clear Hall.
  rewrite exec_cons, IH by done.
  destruct He as [[]| ->]; destruct s; handler_cases.
Qed.

(** C1. Stop-and-finalize builds the audio object only once the recorder's
    stop signal has fired.  Take a state in which recorder [r] has just been
    started with an empty buffer, any sequence [evs] of pauses, resumes and
    chunk deliveries, the Finish click, and any further deliveries [late]
    before the stop signal.  Up to the stop signal nothing is handed to the
    transcription, and the signal is due.  When it fires, exactly one blob is
    handed over: it equals the blob of every delivered chunk in delivery order
    (none left out, none twice), typed with the recorder's media type; the
    buffer it was built from holds those chunks without the empty ones. *)
Theorem stopAndProcess_assembles_delivered r rc evs late s :
  mediaRecorderRef s = Some r ->
  recorders s !! r = Some rc ->
  rec_state rc <> inactive ->
  audioChunksRef s = [] ->
  Forall (duringRecording r) evs ->
  Forall (duringRecording r) late ->
  (forall n,
     transcribing (exec (take n (evs ++ ClickFinish :: late)) s)
     = transcribing s)
  /\ stopQueued r (exec (evs ++ ClickFinish :: late) s) = true
  /\ transcribing (exec (evs ++ ClickFinish :: late ++ [RecorderStopped r]) s)
     = transcribing s
       ++ [newBlob (delivered (evs ++ late))
             (orElse (Some (rec_mimeType rc)) (lit "audio/webm"))]
  /\ audioChunksRef (exec (evs ++ ClickFinish :: late ++ [RecorderStopped r]) s)
     = filter (λ c, 0 < size c) (delivered (evs ++ late)).
Proof.
  intros Href Hrc Hact Hbuf Hevs Hlate.
  assert (Hquiet : Forall (λ e, duringRecording r e \/ e = ClickFinish)
                     (evs ++ ClickFinish :: late)).
  { apply Forall_app; split; [|constructor; [by right|]];
      (eapply list.Forall_impl; [eassumption|intros; by left]). }
  destruct (during_exec r evs s rc Hevs Href Hrc)
    as (rc1 & Href1 & Hrc1 & Hm1 & _ & _ & Hs1 & Hb1).
  destruct (stopAndProcess_recorder r (exec evs s) rc1 Href1 Hrc1)
    as (rc2 & Href2 & Hrc2 & Hm2 & Ho2 & Hq2 & Hb2).
  destruct (during_exec r late (stopAndProcess (exec evs s)) rc2 Hlate Href2 Hrc2)
    as (rc3 & Href3 & Hrc3 & Hm3 & Ho3 & Hq3 & _ & Hb3).
  assert (Hrun : exec (evs ++ ClickFinish :: late) s
                 = exec late (stopAndProcess (exec evs s))).
  { by rewrite exec_app, exec_cons. }
  split; [|split].
  - intros n. apply (transcribing_quiet r). by apply Forall_take.
  - unfold stopQueued. rewrite Hrun, Hrc3, Hq3. apply Hq2. tauto.
  - replace (evs ++ ClickFinish :: late ++ [RecorderStopped r])
      with ((evs ++ ClickFinish :: late) ++ [RecorderStopped r])
      by (by rewrite <- app_assoc).
    rewrite exec_app. change (exec [RecorderStopped r] ?x) with (onstop r x).
    destruct (onstop_resolves r (exec (evs ++ ClickFinish :: late) s) rc3)
      as [Ht Hb]; [by rewrite Hrun|by rewrite Hrun|congruence|].
    rewrite Ht, Hb, (transcribing_quiet r) by done.
    assert (Hchunks : audioChunksRef (exec (evs ++ ClickFinish :: late) s)
                      = filter (λ c, 0 < size c) (delivered (evs ++ late))).
    { rewrite Hrun, Hb3, Hb2, Hb1, Hbuf. simpl.
      by rewrite delivered_app, list.filter_app. }
    rewrite Hchunks, newBlob_filter. split; [|done].
    do 3 f_equal. congruence.
Qed.

(** A recording with a pause, an empty chunk and a late chunk. *)
Lemma stopAndProcess_assembles_delivered_witness :
  (mediaRecorderRef (exec startTrace initial) = Some 0%nat
   /\ recorders (exec startTrace initial) !! 0%nat = Some firstRecorder
   /\ rec_state firstRecorder <> inactive
   /\ audioChunksRef (exec startTrace initial) = [])
  /\ transcribing
       (exec ([DataAvailable 0 chunk1; ClickPause; DataAvailable 0 emptyChunk;
               ClickResume; DataAvailable 0 chunk2]
              ++ ClickFinish :: [DataAvailable 0 chunk3] ++ [RecorderStopped 0])
          (exec startTrace initial))
     = [newBlob [chunk1; emptyChunk; chunk2; chunk3] opus].
Proof.
  assert (H1 : mediaRecorderRef (exec startTrace initial) = Some 0%nat)
    by reflexivity.
  assert (H2 : recorders (exec startTrace initial) !! 0%nat = Some firstRecorder)
    by reflexivity.
  assert (H3 : rec_state firstRecorder <> inactive) by discriminate.
  assert (H4 : audioChunksRef (exec startTrace initial) = []) by reflexivity.
  split; [done|].
  apply (stopAndProcess_assembles_delivered 0 firstRecorder
           [DataAvailable 0 chunk1; ClickPause; DataAvailable 0 emptyChunk;
            ClickResume; DataAvailable 0 chunk2]
           [DataAvailable 0 chunk3] _ H1 H2 H3 H4);
    repeat constructor.
Defined.

(** ** The chunk buffer over the component's life *)

(** C10. A chunk of size zero is dropped by [ondataavailable]; so in every
    reachable state the buffer holds only chunks of positive size, and these
    are the parts the audio object is built from. *)
Theorem buffer_holds_no_empty_chunk s :
  reachable s ->
  (forall rid data, size data = 0 -> step (DataAvailable rid data) s = s)
  /\ Forall (λ c, 0 < size c) (audioChunksRef s)
  /\ audioBlob s = newBlob (audioChunksRef s) (type (audioBlob s)).
Proof.
  intros Hs. split; [|split; [|done]].
  - intros rid data Hz. simpl. unfold ondataavailable. by rewrite Hz.
  - induction Hs; [constructor|by apply chunks_step].
Qed.

(** An empty chunk and a chunk of three bytes arrive: one is buffered. *)
Lemma buffer_holds_no_empty_chunk_witness :
  reachable (exec (startTrace ++ [DataAvailable 0 emptyChunk; DataAvailable 0 chunk1]) initial)
  /\ audioChunksRef
       (exec (startTrace ++ [DataAvailable 0 emptyChunk; DataAvailable 0 chunk1]) initial)
     = [chunk1]
  /\ Forall (λ c, 0 < size c)
       (audioChunksRef
          (exec (startTrace ++ [DataAvailable 0 emptyChunk; DataAvailable 0 chunk1])
             initial)).
Proof.
  assert (Hr : reachable (exec (startTrace ++ [DataAvailable 0 emptyChunk;
                                               DataAvailable 0 chunk1]) initial)).
  { apply (run_reachable
             (startTrace ++ [DataAvailable 0 emptyChunk; DataAvailable 0 chunk1])
             initial); [constructor|by_running]. }
  split; [exact Hr|]. split; [by_running|].
  apply (buffer_holds_no_empty_chunk _ Hr).
Defined.




(** ** The capture device *)

(** C3, as the claim states it, fails: after Cancel the phase is Idle, no
    acquisition is in flight or scheduled, and the stream is still open; the
    same after a recording was finalized and transcribed. *)
Lemma cancel_leaves_device_open :
  run cancelTrace initial = Some (exec cancelTrace initial)
  /\ appState (exec cancelTrace initial) = IDLE
  /\ acquiring (exec cancelTrace initial) = 0%nat
  /\ timers (exec cancelTrace initial) = 0%nat
  /\ deviceOpen (exec cancelTrace initial) = true
  /\ appState (exec finalizeTrace initial) = IDLE
  /\ deviceOpen (exec finalizeTrace initial) = true.
Proof. by_running. Qed.

(** C3, amended. The stream is opened by a granted acquisition, which adds
    one live stream, makes it the held one and stops no track.  The
    component stops tracks in two places only: when a Start begins (clicked,
    or scheduled by Restart and run when its timer fires) and at unmount, and
    there it stops the tracks of the held stream and of no other.  Every
    other event leaves every stream and the stream ref as they are: Cancel,
    Restart itself and Stop-and-finalize (the click, the stop signal, the
    transcription settling) among them, so the stream stays open in Idle and
    Processing.  In Recording and Paused a stream is held. *)
Theorem device_release_points s :
  reachable s ->
  (forall webmOpus mp4, deviceOpen (step (MicGranted webmOpus mp4) s) = true)
  /\ deviceOpen (step ClickStart s) = false
  /\ deviceOpen (step TimerFired s) = false
  /\ deviceOpen (step Unmounted s) = false
  /\ deviceOpen (step ClickCancel s) = deviceOpen s
  /\ deviceOpen (step ClickRestart s) = deviceOpen s
  /\ deviceOpen (step ClickFinish s) = deviceOpen s
  /\ (forall r, deviceOpen (step (RecorderStopped r) s) = deviceOpen s)
  /\ (forall i reply idNow tsNow,
        deviceOpen (step (TranscriptionSettled i reply idNow tsNow) s)
        = deviceOpen s)
  /\ (appState s = RECORDING \/ appState s = PAUSED -> is_Some (streamRef s))
  /\ (forall e, releasesDevice e = false -> acquiresDevice e = false ->
        streams (step e s) = streams s
        /\ streamRef (step e s) = streamRef s)
  /\ (forall e, releasesDevice e = true ->
        streamRef (step e s) = streamRef s
        /\ streams (step e s)
           = match streamRef s with
             | Some sid => <[sid := false]> (streams s)
             | None => streams s
             end)
  /\ (forall webmOpus mp4,
        streams (step (MicGranted webmOpus mp4) s) = streams s ++ [true]
        /\ streamRef (step (MicGranted webmOpus mp4) s)
           = Some (length (streams s))).
Proof.
  intros Hs. apply reachable_wellFormed in Hs as [_ Hstr Hph _ Hheld _ _].
  assert (Hrelease :
    forall s', deviceOpen (releaseStream s') = false).
  { intros s'. unfold deviceOpen, releaseStream, stopTracks.
    destruct s' as [? ? ? ? ? ? ? ? ? [sid|] ? streams0]; simpl; [|done].
    apply bool_decide_eq_false. intros Hlook.
    apply list_lookup_insert_Some in Hlook as [(_ & ? & _)|(? & _)]; done. }
  split_and!.
  - intros webmOpus mp4. destruct s; unfold deviceOpen; handler_cases.
    all: apply bool_decide_eq_true; by rewrite lookup_app_r, Nat.sub_diag.
  - simpl. unfold initRecording.
    by rewrite <- (Hrelease (setErrorMsg None s)).
  - simpl. unfold initRecording.
    by rewrite <- (Hrelease (setErrorMsg None (setTimers (pred (timers s)) s))).
  - simpl. unfold unmount. by rewrite <- (Hrelease s).
  - destruct s; unfold deviceOpen; by handler_cases.
  - destruct s; unfold deviceOpen; by handler_cases.
  - destruct s; unfold deviceOpen; by handler_cases.
  - intros r. destruct s; unfold deviceOpen; by handler_cases.
  - intros i reply idNow tsNow. destruct s; unfold deviceOpen; by handler_cases.
  - intros Hrec. by apply Hheld, Hph.
  - intros e Hrel Hacq. destruct e; try done; destruct s; by handler_cases.
  - intros e Hrel. destruct e; try done; destruct s; by handler_cases.
  - intros webmOpus mp4. destruct s; by handler_cases.
Qed.

(** The stream left open by Cancel is released when the next Start begins. *)
Lemma device_release_points_witness :
  reachable (exec cancelTrace initial)
  /\ deviceOpen (exec cancelTrace initial) = true
  /\ deviceOpen (step ClickStart (exec cancelTrace initial)) = false.
Proof.
  assert (Hr : reachable (exec cancelTrace initial)).
  { apply (run_reachable cancelTrace initial); [constructor|by_running]. }
  split; [exact Hr|]. split; [by_running|].
  apply (device_release_points _ Hr).
Defined.

(** ** Transcription and summarization settling *)

(** C5. When the transcription settles the component is back in Idle
    either way.  If it returned text [t], exactly one segment with text [t]
    is appended after the segments the store holds; if it failed, the
    transcription message is shown and the store is as it was.  The summary
    is untouched in both cases. *)
Theorem processAudio_settles s i reply idNow tsNow :
  appState (step (TranscriptionSettled i reply idNow tsNow) s) = IDLE
  /\ summary (step (TranscriptionSettled i reply idNow tsNow) s) = summary s
  /\ transcribing (step (TranscriptionSettled i reply idNow tsNow) s)
     = delete i (transcribing s)
  /\ match transcribeAudioToUrdu reply with
     | Fulfilled t =>
         segments (step (TranscriptionSettled i reply idNow tsNow) s)
         = segments s ++ [mkSegment (toString idNow) t tsNow]
         /\ errorMsg (step (TranscriptionSettled i reply idNow tsNow) s)
            = errorMsg s
     | Rejected =>
         segments (step (TranscriptionSettled i reply idNow tsNow) s)
         = segments s
         /\ errorMsg (step (TranscriptionSettled i reply idNow tsNow) s)
            = Some (lit "Transcription failed. Please try again or check file format.")
     end.
Proof.
  simpl. by destruct (transcribeAudioToUrdu reply).
Qed.

(** The scenario of the specification: Start, two chunks, Stop, the call
    returns a text; the store holds one segment with that text and the phase
    is Idle. *)
Example record_two_chunks_then_stop :
  run (startTrace
       ++ [DataAvailable 0 chunk1; DataAvailable 0 chunk2; ClickFinish;
           RecorderStopped 0;
           TranscriptionSettled 0 (Response (Some (lit "salam")))
             1700000000000 1700000000001])
      initial
  = Some (exec (startTrace
       ++ [DataAvailable 0 chunk1; DataAvailable 0 chunk2; ClickFinish;
           RecorderStopped 0;
           TranscriptionSettled 0 (Response (Some (lit "salam")))
             1700000000000 1700000000001]) initial)
  /\ segments (exec (startTrace
       ++ [DataAvailable 0 chunk1; DataAvailable 0 chunk2; ClickFinish;
           RecorderStopped 0;
           TranscriptionSettled 0 (Response (Some (lit "salam")))
             1700000000000 1700000000001]) initial)
     = [mkSegment (lit "1700000000000") (lit "salam") 1700000000001]
  /\ appState (exec (startTrace
       ++ [DataAvailable 0 chunk1; DataAvailable 0 chunk2; ClickFinish;
           RecorderStopped 0;
           TranscriptionSettled 0 (Response (Some (lit "salam")))
             1700000000000 1700000000001]) initial)
     = IDLE.
Proof. by_running. Qed.

(** C4, as the claim states it, fails: a summary call that answers without
    a text does not fail; the component stores the stand-in text as the
    summary and shows no message. *)
Lemma empty_summary_is_stored :
  summarizeUrduContent (Response None)
  = Fulfilled (lit "Could not generate summary.")
  /\ run emptySummaryTrace initial = Some (exec emptySummaryTrace initial)
  /\ summary (exec emptySummaryTrace initial)
     = Some (lit "Could not generate summary.")
  /\ errorMsg (exec emptySummaryTrace initial) = None.
Proof. by_running. Qed.

(** C4, amended. [summarizeUrduContent] fails exactly when the remote
    call throws.  When the response text is absent or empty it returns the
    stand-in text, which the caller stores as the summary in place of the
    one it had, showing no message.  When it fails the caller shows the
    summarization message and keeps the summary.  The segments are kept and
    the phase is Idle however the call settles. *)
Theorem summarize_settles s i :
  (forall reply, summarizeUrduContent reply = Rejected <-> reply = Thrown)
  /\ summarizeUrduContent (Response None)
     = Fulfilled (lit "Could not generate summary.")
  /\ summarizeUrduContent (Response (Some []))
     = Fulfilled (lit "Could not generate summary.")
  /\ (forall reply,
        segments (step (SummarySettled i reply) s) = segments s
        /\ appState (step (SummarySettled i reply) s) = IDLE)
  /\ errorMsg (step (SummarySettled i Thrown) s)
     = Some (lit "Summarization failed.")
  /\ summary (step (SummarySettled i Thrown) s) = summary s
  /\ summary (step (SummarySettled i (Response None)) s)
     = Some (lit "Could not generate summary.")
  /\ errorMsg (step (SummarySettled i (Response None)) s) = errorMsg s
  /\ summary (step (SummarySettled i (Response (Some []))) s)
     = Some (lit "Could not generate summary.")
  /\ errorMsg (step (SummarySettled i (Response (Some []))) s) = errorMsg s.
Proof.
  split_and!; try done.
  - intros [|[[|c text]|]]; simpl; split; intros; done.
  - intros reply. simpl. by destruct (summarizeUrduContent reply).
Qed.

(** ** Cancel and Restart *)

(** Once [onstop] is cleared on recorder [r], what the recorder still does
    reaches neither the transcription nor the store. *)
Lemma afterStop_quiet r late : forall s,
  (forall rc, recorders s !! r = Some rc -> rec_onstop rc = None) ->
  Forall (afterStop r) late ->
  transcribing (exec late s) = transcribing s
  /\ segments (exec late s) = segments s.
Proof.
  induction late as [|e late IH]; intros s Hoff Hall; [done|].
  inversion Hall as [|? ? He Hall']; subst; clear Hall.
  rewrite exec_cons.
  assert (Hstep : transcribing (step e s) = transcribing s
                  /\ segments (step e s) = segments s
                  /\ forall rc, recorders (step e s) !! r = Some rc ->
                               rec_onstop rc = None).
  { destruct He as [data|]; simpl.
    - unfold ondataavailable. by destruct (0 <? size data).
    - unfold onstop. destruct (recorders s !! r) as [rc|] eqn:Hrc.
      + rewrite (Hoff rc eq_refl). simpl. split_and!; try done.
        intros rc'. rewrite list_lookup_alter_eq, Hrc. simpl.
        intros [= <-]. exact (Hoff rc eq_refl).
      + split_and!; try done. intros rc'. rewrite Hrc. by intros [=]. }
  destruct Hstep as (Ht & Hseg & Hoff').
  destruct (IH (step e s) Hoff' Hall') as [-> ->]. done.
Qed.

(** C6. Cancel and Restart, when the controls are offered (Recording or
    Paused), put the phase to Idle and empty the buffer; they hand nothing
    to the transcription and add no segment, neither at the click nor when
    the recorder later delivers its last data and fires its stop signal.
    Cancel schedules nothing; Restart schedules one timer, and when it fires
    Start runs. *)
Theorem cancel_restart_skip_transcription s e :
  reachable s ->
  e = ClickCancel \/ e = ClickRestart ->
  enabled s e = true ->
  exists r,
    mediaRecorderRef s = Some r
    /\ appState (step e s) = IDLE
    /\ audioChunksRef (step e s) = []
    /\ segments (step e s) = segments s
    /\ transcribing (step e s) = transcribing s
    /\ (forall late, Forall (afterStop r) late ->
          transcribing (exec late (step e s)) = transcribing s
          /\ segments (exec late (step e s)) = segments s)
    /\ acquiring (step e s) = acquiring s
    /\ (e = ClickCancel -> timers (step e s) = timers s)
    /\ (e = ClickRestart ->
          timers (step e s) = S (timers s)
          /\ enabled (step e s) TimerFired = true
          /\ step TimerFired (step e s)
             = initRecording (setTimers (timers s) (step e s))).
Proof.
  intros Hs He Hen.
  apply reachable_wellFormed in Hs as [Hrec _ Hph _ _ _ _].
  assert (Hphase : appState s = RECORDING \/ appState s = PAUSED).
  { destruct He as [-> | ->]; unfold enabled, isRecording, isPaused in Hen;
      apply andb_prop in Hen as [_ Hen]; apply orb_prop in Hen as [Hen|Hen];
      apply bool_decide_eq_true in Hen; auto. }
  assert (Hmounted : mounted s = true).
  { destruct He as [-> | ->]; by apply andb_prop in Hen as [? _]. }
  destruct (Hph Hphase) as [r Hr]. destruct (Hrec r Hr) as [rc Hrc].
  exists r.
  assert (Hoff : forall rc', recorders (step e s) !! r = Some rc' ->
                             rec_onstop rc' = None).
  { intros rc'. destruct s; simpl in *; subst.
    destruct He as [-> | ->]; unfold_handlers; simpl;
      rewrite !list_lookup_alter_eq, Hrc; simpl; intros [= <-];
      unfold recStop; simpl; by destruct (rec_state rc). }
  split_and!; try done.
  - destruct s; simpl in *; subst. by destruct He as [-> | ->].
  - destruct s; simpl in *; subst. by destruct He as [-> | ->].
  - destruct s; simpl in *; subst. by destruct He as [-> | ->].
  - destruct s; simpl in *; subst. by destruct He as [-> | ->].
  - intros late Hlate.
    destruct (afterStop_quiet r late (step e s) Hoff Hlate) as [-> ->].
    destruct s; simpl in *; subst. by destruct He as [-> | ->].
  - destruct s; simpl in *; subst. by destruct He as [-> | ->].
  - intros ->. destruct s; simpl in *; by subst.
  - intros ->. destruct s; simpl in *; subst. split_and!; try done.
Qed.

(** Cancel and Restart from a paused recording that buffered a chunk. *)
Lemma cancel_restart_skip_transcription_witness :
  (reachable (exec (startTrace ++ [DataAvailable 0 chunk1; ClickPause]) initial)
   /\ enabled (exec (startTrace ++ [DataAvailable 0 chunk1; ClickPause]) initial)
        ClickCancel = true
   /\ enabled (exec (startTrace ++ [DataAvailable 0 chunk1; ClickPause]) initial)
        ClickRestart = true)
  /\ (exists r,
       mediaRecorderRef
         (exec (startTrace ++ [DataAvailable 0 chunk1; ClickPause]) initial) = Some r
       /\ appState
            (step ClickCancel
               (exec (startTrace ++ [DataAvailable 0 chunk1; ClickPause]) initial))
          = IDLE)
  /\ (exists r,
       mediaRecorderRef
         (exec (startTrace ++ [DataAvailable 0 chunk1; ClickPause]) initial) = Some r
       /\ appState
            (step ClickRestart
               (exec (startTrace ++ [DataAvailable 0 chunk1; ClickPause]) initial))
          = IDLE).
Proof.
  assert (Hr : reachable
                 (exec (startTrace ++ [DataAvailable 0 chunk1; ClickPause]) initial)).
  { apply (run_reachable (startTrace ++ [DataAvailable 0 chunk1; ClickPause])
             initial); [constructor|by_running]. }
  assert (Hcancel : enabled
                  (exec (startTrace ++ [DataAvailable 0 chunk1; ClickPause]) initial)
                  ClickCancel = true) by by_running.
  assert (Hrestart : enabled
                  (exec (startTrace ++ [DataAvailable 0 chunk1; ClickPause]) initial)
                  ClickRestart = true) by by_running.
  split; [done|]. split.
  - destruct (cancel_restart_skip_transcription _ ClickCancel Hr
                (or_introl eq_refl) Hcancel) as (r & Href & Hidle & _).
    by exists r.
  - destruct (cancel_restart_skip_transcription _ ClickRestart Hr
                (or_intror eq_refl) Hrestart) as (r & Href & Hidle & _).
    by exists r.
Defined.

(** ** File upload *)

Lemma size_oversizedFile : size oversizedFile = 629145600.
Proof.
  unfold size, oversizedFile, bytes.
  rewrite length_replicate. apply N2Nat.id.
Qed.

(** C7. A file larger than 500 MiB is refused: the size message is shown
    and nothing else changes, so the phase, the store, the summary and the
    pending transcriptions are as before.  A file of at most 500 MiB puts the
    phase to Processing and is handed to the transcription as it is. *)
Theorem handleFileUpload_size_limit s file :
  (500 * 1024 * 1024 < size file ->
     handleFileUpload (Some file) s
     = setErrorMsg (Some (lit "File too large. Max 500MB allowed.")) s
     /\ appState (handleFileUpload (Some file) s) = appState s
     /\ segments (handleFileUpload (Some file) s) = segments s
     /\ summary (handleFileUpload (Some file) s) = summary s
     /\ transcribing (handleFileUpload (Some file) s) = transcribing s)
  /\ (size file <= 500 * 1024 * 1024 ->
       appState (handleFileUpload (Some file) s) = PROCESSING
       /\ transcribing (handleFileUpload (Some file) s) = transcribing s ++ [file]
       /\ segments (handleFileUpload (Some file) s) = segments s
       /\ summary (handleFileUpload (Some file) s) = summary s
       /\ errorMsg (handleFileUpload (Some file) s) = None).
Proof.
  unfold handleFileUpload. split; intros Hsize.
  - apply N.ltb_lt in Hsize. by rewrite Hsize.
  - apply N.ltb_ge in Hsize. by rewrite Hsize.
Qed.

(** The scenario of the specification: a file of 600 MiB is refused; and a
    file of three bytes is submitted. *)
Lemma handleFileUpload_size_limit_witness :
  (500 * 1024 * 1024 < size oversizedFile
   /\ size smallFile <= 500 * 1024 * 1024)
  /\ handleFileUpload (Some oversizedFile) initial
     = setErrorMsg (Some (lit "File too large. Max 500MB allowed.")) initial
  /\ transcribing (handleFileUpload (Some smallFile) initial) = [] ++ [smallFile].
Proof.
  assert (Hbig : 500 * 1024 * 1024 < size oversizedFile).
  { rewrite size_oversizedFile. reflexivity. }
  assert (Hsmall : size smallFile <= 500 * 1024 * 1024) by discriminate.
  split; [exact (conj Hbig Hsmall)|]. split.
  - exact (proj1 (proj1 (handleFileUpload_size_limit initial oversizedFile) Hbig)).
  - exact (proj1 (proj2 (proj2 (handleFileUpload_size_limit initial smallFile) Hsmall))).
Defined.

(** ** The transcript store *)

Lemma toString_inj m n : toString m = toString n -> m = n.
Proof.
  unfold toString, lit. intros H.
  assert (Hinj : Inj (=) (=) N_of_ascii).
  { intros a b Hab. apply (f_equal ascii_of_N) in Hab.
    by rewrite !ascii_N_embedding in Hab. }
  apply (list_fmap_eq_inj _ Hinj) in H.
  apply (f_equal string_of_list_ascii) in H.
  rewrite !string_of_list_ascii_of_string in H.
  apply (f_equal NilEmpty.uint_of_string) in H.
  rewrite !NilEmpty.usu in H. injection H as H.
  apply (f_equal N.of_uint) in H. by rewrite !Unsigned.of_to in H.
Qed.

Lemma filter_keeps_all {A} (P : A -> Prop) `{forall x, Decision (P x)} (l : list A) :
  Forall P l -> filter P l = l.
Proof.
  induction 1 as [|x l Hx Hl IH]; [done|].
  by rewrite filter_cons_True, IH.
Qed.

Lemma others_kept id (l : list TranscriptSegment) :
  id ∉ seg_id <$> l -> Forall (λ x, seg_id x ≠ id) l.
Proof.
  intros Hid. apply list.Forall_forall. intros x Hx Heq.
  apply Hid. rewrite <- Heq. by apply list_elem_of_fmap_2.
Qed.

(** C8 does not hold of the code.  A segment's id is the clock reading
    alone; the chat's answer, by contrast, is told apart from its question by
    [Date.now() + 1].  The file is chosen while the microphone prompt is
    open, so its transcription and the recording's are in flight together;
    they settle at the same clock reading, the two segments get the same id,
    and deleting by that id removes both. *)
Lemma same_clock_same_id :
  run sameClockTrace initial = Some (exec sameClockTrace initial)
  /\ seg_id <$> segments (exec sameClockTrace initial)
     = [lit "1700000000000"; lit "1700000000000"]
  /\ segments (handleDeleteSegment (lit "1700000000000")
                 (exec sameClockTrace initial))
     = [].
Proof. by_running. Qed.

(** X1. [handleDeleteSegment id] keeps exactly the segments whose id differs
    from [id], which is at most one segment less when the stored ids are
    pairwise distinct, and changes nothing when no segment has that id.  A
    new segment's id is the decimal rendering of the clock reading taken when
    the transcription settles; renderings of different readings differ, so
    the ids stay pairwise distinct as long as the reading has not been used
    for a stored segment. *)
Theorem delete_and_segment_ids s id :
  (forall x, x ∈ segments (handleDeleteSegment id s)
             <-> x ∈ segments s /\ seg_id x ≠ id)
  /\ (NoDup (seg_id <$> segments s) ->
       (length (segments s) <= S (length (segments (handleDeleteSegment id s))))%nat)
  /\ (id ∉ seg_id <$> segments s -> handleDeleteSegment id s = s)
  /\ (forall i reply idNow tsNow,
       NoDup (seg_id <$> segments s) ->
       toString idNow ∉ seg_id <$> segments s ->
       NoDup (seg_id <$>
                segments (step (TranscriptionSettled i reply idNow tsNow) s)))
  /\ (forall m n, toString m = toString n -> m = n).
Proof.
  split_and!.
  - intros x. simpl. by rewrite list_elem_of_filter, (comm and).
  - simpl. induction (segments s) as [|x l IH]; [simpl; lia|].
    rewrite fmap_cons, list.NoDup_cons. intros [Hx Hl].
    destruct (decide (seg_id x = id)) as [<-|Hne].
    + rewrite filter_cons_False by (by intros ?).
      rewrite (filter_keeps_all _ l) by (by apply others_kept). simpl. lia.
    + rewrite filter_cons_True by done. simpl. specialize (IH Hl). lia.
  - intros Hid. unfold handleDeleteSegment.
    rewrite (filter_keeps_all _ (segments s)) by (by apply others_kept).
    by destruct s.
  - intros i reply idNow tsNow Hnodup Hfresh. simpl.
    destruct (transcribeAudioToUrdu reply) as [text|]; simpl; [|done].
    rewrite fmap_app. apply list.NoDup_app. split_and!; [done| |].
    + intros x Hx ->%list_elem_of_singleton. done.
    + apply NoDup_singleton.
  - apply toString_inj.
Qed.

(** One stored segment: deleting an id that is not stored, and the stored
    one. *)
Lemma delete_and_segment_ids_witness :
  (NoDup (seg_id <$> segments (exec finalizeTrace initial))
   /\ lit "42" ∉ seg_id <$> segments (exec finalizeTrace initial))
  /\ handleDeleteSegment (lit "42") (exec finalizeTrace initial)
     = exec finalizeTrace initial
  /\ (length (segments (exec finalizeTrace initial))
      <= S (length (segments (handleDeleteSegment (lit "1700000000000")
                                (exec finalizeTrace initial)))))%nat.
Proof.
  assert (Hids : seg_id <$> segments (exec finalizeTrace initial)
                 = [lit "1700000000000"]) by by_running.
  assert (Hnodup : NoDup (seg_id <$> segments (exec finalizeTrace initial))).
  { rewrite Hids. apply NoDup_singleton. }
  assert (Hfresh : lit "42" ∉ seg_id <$> segments (exec finalizeTrace initial)).
  { rewrite Hids. by intros [=]%list_elem_of_singleton. }
  split; [done|]. split.
  - exact (proj1 (proj2 (proj2 (delete_and_segment_ids _ (lit "42")))) Hfresh).
  - exact (proj1 (proj2 (delete_and_segment_ids _ (lit "1700000000000"))) Hnodup).
Defined.

(** ** The chat session *)

(** While a question is outstanding, nothing but its answer and a confirmed
    "Clear All" touches the log; a further submission is dropped. *)
Lemma keepsQuestion_step e s :
  keepsQuestion e ->
  isChatLoading s = true ->
  chatMessages (step e s) = chatMessages s
  /\ answering (step e s) = answering s
  /\ isChatLoading (step e s) = true.
Proof.
  intros He Hload. destruct s; simpl in *; subst.
  destruct e; try done; handler_cases.
  all: by rewrite ?orb_true_r in *.
Qed.

Lemma keepsQuestion_exec evs : forall s,
  Forall keepsQuestion evs ->
  isChatLoading s = true ->
  chatMessages (exec evs s) = chatMessages s
  /\ answering (exec evs s) = answering s
  /\ isChatLoading (exec evs s) = true.
Proof.
  induction evs as [|e evs IH]; intros s Hall Hload; [done|].
  inversion Hall as [|? ? He Hall']; subst; clear Hall.
  destruct (keepsQuestion_step e s He Hload) as (Hm & Ha & Hl).
  destruct (IH (step e s) Hall' Hl) as (Hm' & Ha' & Hl').
  rewrite exec_cons. split_and!; congruence.
Qed.

(** Once "Clear All" has emptied the log while a question is outstanding,
    the log stays empty until the answer arrives. *)
Lemma awaitsAnswer_exec evs : forall s,
  Forall awaitsAnswer evs ->
  isChatLoading s = true ->
  chatMessages s = [] ->
  chatMessages (exec evs s) = [] /\ isChatLoading (exec evs s) = true.
Proof.
  induction evs as [|e evs IH]; intros s Hall Hload Hempty; [done|].
  inversion Hall as [|? ? He Hall']; subst; clear Hall.
  rewrite exec_cons. apply IH; [done| |].
  - destruct s; simpl in *; subst.
    destruct e; try done; handler_cases; by rewrite ?orb_true_r in *.
  - destruct s; simpl in *; subst.
    destruct e; try done; handler_cases; by rewrite ?orb_true_r in *.
Qed.

(** C9, as the claim states it, fails: "Clear All" confirmed while the
    answer is outstanding empties the log, and the answer that arrives
    afterwards is the only message in it, with no user message before it. *)
Lemma clear_all_leaves_answer_alone :
  run clearedQuestionTrace initial = Some (exec clearedQuestionTrace initial)
  /\ chatMessages (exec clearedQuestionTrace initial)
     = [mkMessage (lit "1700000000901") ai (lit "jawab") 1700000000900].
Proof. by_running. Qed.

(** C9, amended. A submission with a non-blank input, no answer being
    outstanding, appends the user message at once and leaves exactly one
    question outstanding.  Until the answer arrives every further submission
    is dropped, and the log stays as it is unless "Clear All" is confirmed.
    When the call settles exactly one assistant message is appended and the
    error banner is not touched: right after the user message when no "Clear
    All" came in between, and as the only message of the log when one did.
    Its text is the response text as it is, the stand-in when the response
    text is absent or empty, and the apology when the call failed.  In every
    reachable state at most one question is outstanding. *)
Theorem ask_appends_question_then_answer
    s idNow tsNow between after i reply idAns tsAns :
  reachable s ->
  trim (chatInput s) <> [] ->
  isChatLoading s = false ->
  Forall keepsQuestion between ->
  Forall awaitsAnswer after ->
  (length (answering s) <= 1)%nat
  /\ chatMessages (step (ChatSubmitted idNow tsNow) s)
     = chatMessages s ++ [mkMessage (toString idNow) user (chatInput s) tsNow]
  /\ answering (step (ChatSubmitted idNow tsNow) s)
     = [(chatContext s, chatInput s)]
  /\ chatMessages (exec between (step (ChatSubmitted idNow tsNow) s))
     = chatMessages s ++ [mkMessage (toString idNow) user (chatInput s) tsNow]
  /\ answering (exec between (step (ChatSubmitted idNow tsNow) s))
     = [(chatContext s, chatInput s)]
  /\ (forall idNow' tsNow',
       step (ChatSubmitted idNow' tsNow')
         (exec between (step (ChatSubmitted idNow tsNow) s))
       = exec between (step (ChatSubmitted idNow tsNow) s))
  /\ chatMessages
       (step (AnswerSettled i reply idAns tsAns)
          (exec between (step (ChatSubmitted idNow tsNow) s)))
     = chatMessages s
       ++ [mkMessage (toString idNow) user (chatInput s) tsNow;
           mkMessage (toString (idAns + 1)) ai
             match chatWithTranscript reply with
             | Fulfilled responseText => responseText
             | Rejected => lit "Sorry, I couldn't process that question right now."
             end tsAns]
  /\ isChatLoading
       (step (AnswerSettled i reply idAns tsAns)
          (exec between (step (ChatSubmitted idNow tsNow) s)))
     = false
  /\ errorMsg
       (step (AnswerSettled i reply idAns tsAns)
          (exec between (step (ChatSubmitted idNow tsNow) s)))
     = errorMsg (exec between (step (ChatSubmitted idNow tsNow) s))
  /\ chatMessages
       (step (AnswerSettled i reply idAns tsAns)
          (exec (between ++ ClickClearAll true :: after)
             (step (ChatSubmitted idNow tsNow) s)))
     = [mkMessage (toString (idAns + 1)) ai
          match chatWithTranscript reply with
          | Fulfilled responseText => responseText
          | Rejected => lit "Sorry, I couldn't process that question right now."
          end tsAns]
  /\ (forall idNow' tsNow',
       step (ChatSubmitted idNow' tsNow')
         (exec (between ++ ClickClearAll true :: after)
            (step (ChatSubmitted idNow tsNow) s))
       = exec (between ++ ClickClearAll true :: after)
           (step (ChatSubmitted idNow tsNow) s))
  /\ chatWithTranscript Thrown = Rejected
  /\ chatWithTranscript (Response None)
     = Fulfilled (lit "I could not generate an answer.")
  /\ chatWithTranscript (Response (Some []))
     = Fulfilled (lit "I could not generate an answer.")
  /\ (forall c text,
       chatWithTranscript (Response (Some (c :: text))) = Fulfilled (c :: text)).
Proof.
  intros Hs Hinput Hidle Hbetween Hafter.
  apply reachable_wellFormed in Hs as [_ _ _ _ _ _ Hchat].
  rewrite Hidle in Hchat. apply nil_length_inv in Hchat.
  assert (Hasked :
    chatMessages (step (ChatSubmitted idNow tsNow) s)
    = chatMessages s ++ [mkMessage (toString idNow) user (chatInput s) tsNow]
    /\ answering (step (ChatSubmitted idNow tsNow) s)
       = [(chatContext s, chatInput s)]
    /\ isChatLoading (step (ChatSubmitted idNow tsNow) s) = true).
  { simpl. unfold handleSendMessage. rewrite Hidle, Hchat.
    destruct (trim (chatInput s)); [done|]. simpl. done. }
  destruct Hasked as (Hm & Ha & Hl).
  destruct (keepsQuestion_exec between _ Hbetween Hl) as (Hm' & Ha' & Hl').
  rewrite Hm in Hm'. rewrite Ha in Ha'.
  assert (Hcleared :
    chatMessages (exec (between ++ ClickClearAll true :: after)
                    (step (ChatSubmitted idNow tsNow) s)) = []
    /\ isChatLoading (exec (between ++ ClickClearAll true :: after)
                        (step (ChatSubmitted idNow tsNow) s)) = true).
  { rewrite exec_app, exec_cons. apply awaitsAnswer_exec; [done| |].
    - change (step (ClickClearAll true) ?x) with (clearAll true x).
      by destruct (exec between (step (ChatSubmitted idNow tsNow) s)).
    - change (step (ClickClearAll true) ?x) with (clearAll true x).
      by destruct (exec between (step (ChatSubmitted idNow tsNow) s)). }
  destruct Hcleared as [Hmc Hlc].
  split_and!; try done.
  - rewrite Hchat. simpl. lia.
  - intros idNow' tsNow'.
    change (step (ChatSubmitted idNow' tsNow') ?x)
      with (handleSendMessage idNow' tsNow' x).
    unfold handleSendMessage. by rewrite Hl', orb_true_r.
  - change (step (AnswerSettled i reply idAns tsAns) ?x)
      with (handleSendMessage_settled (chatWithTranscript reply) idAns tsAns
              (setAnswering (delete i (answering x)) x)).
    unfold handleSendMessage_settled.
    change (chatMessages (setIsChatLoading ?b (setChatMessages ?m ?x))) with m.
    change (chatMessages (setAnswering ?a ?x)) with (chatMessages x).
    by rewrite Hm', <- app_assoc.
  - change (step (AnswerSettled i reply idAns tsAns) ?x)
      with (handleSendMessage_settled (chatWithTranscript reply) idAns tsAns
              (setAnswering (delete i (answering x)) x)).
    unfold handleSendMessage_settled.
    change (chatMessages (setIsChatLoading ?b (setChatMessages ?m ?x))) with m.
    change (chatMessages (setAnswering ?a ?x)) with (chatMessages x).
    by rewrite Hmc.
  - intros idNow' tsNow'.
    change (step (ChatSubmitted idNow' tsNow') ?x)
      with (handleSendMessage idNow' tsNow' x).
    unfold handleSendMessage. by rewrite Hlc, orb_true_r.
Qed.

(** A question, a second submission while it is outstanding, and a call
    that fails; and the same with the log cleared in between. *)
Lemma ask_appends_question_then_answer_witness :
  (reachable (exec questionTrace initial)
   /\ trim (chatInput (exec questionTrace initial)) <> []
   /\ isChatLoading (exec questionTrace initial) = false
   /\ Forall keepsQuestion
        [ChatTyped (lit "And then?"); ChatSubmitted 1700000000500 1700000000500]
   /\ Forall awaitsAnswer [ClickClearAll false])
  /\ chatMessages
       (step (AnswerSettled 0 Thrown 1700000000900 1700000000900)
          (exec [ChatTyped (lit "And then?");
                 ChatSubmitted 1700000000500 1700000000500]
             (step (ChatSubmitted 1700000000100 1700000000100)
                (exec questionTrace initial))))
     = chatMessages (exec questionTrace initial)
       ++ [mkMessage (toString 1700000000100) user
             (chatInput (exec questionTrace initial)) 1700000000100;
           mkMessage (toString (1700000000900 + 1)) ai
             match chatWithTranscript Thrown with
             | Fulfilled responseText => responseText
             | Rejected => lit "Sorry, I couldn't process that question right now."
             end 1700000000900]
  /\ chatMessages
       (step (AnswerSettled 0 Thrown 1700000000900 1700000000900)
          (exec ([ChatTyped (lit "And then?");
                  ChatSubmitted 1700000000500 1700000000500]
                 ++ ClickClearAll true :: [ClickClearAll false])
             (step (ChatSubmitted 1700000000100 1700000000100)
                (exec questionTrace initial))))
     = [mkMessage (toString (1700000000900 + 1)) ai
          match chatWithTranscript Thrown with
          | Fulfilled responseText => responseText
          | Rejected => lit "Sorry, I couldn't process that question right now."
          end 1700000000900].
Proof.
  assert (Hr : reachable (exec questionTrace initial)).
  { apply (run_reachable questionTrace initial); [constructor|by_running]. }
  assert (Hin : trim (chatInput (exec questionTrace initial)) <> [])
    by (vm_compute; discriminate).
  assert (Hidle : isChatLoading (exec questionTrace initial) = false)
    by by_running.
  assert (Hbetween : Forall keepsQuestion
            [ChatTyped (lit "And then?");
             ChatSubmitted 1700000000500 1700000000500])
    by (repeat constructor).
  assert (Hafter : Forall awaitsAnswer [ClickClearAll false])
    by (repeat constructor).
  pose proof (ask_appends_question_then_answer _ 1700000000100 1700000000100 _ _
                0%nat Thrown 1700000000900 1700000000900 Hr Hin Hidle Hbetween
                Hafter)
    as (_ & _ & _ & _ & _ & _ & Hanswered & _ & _ & Hcleared & _).
  split; [done|]. split; [exact Hanswered|exact Hcleared].
Defined.

(** ** Further properties of the store *)

(** X2. A confirmed "Clear All" empties the segments, the summary and the
    chat log together, after which none of Summarize, Delete, Clear All and the
    summary's dismissal is offered and there is nothing to export; it cancels
    no pending call and leaves the phase alone.  A declined one changes
    nothing. *)
Theorem clearAll_empties s :
  segments (clearAll true s) = []
  /\ summary (clearAll true s) = None
  /\ chatMessages (clearAll true s) = []
  /\ hasContent (clearAll true s) = false
  /\ enabled (clearAll true s) ClickSummarize = false
  /\ (forall id, enabled (clearAll true s) (ClickDelete id) = false)
  /\ (forall confirmed, enabled (clearAll true s) (ClickClearAll confirmed) = false)
  /\ enabled (clearAll true s) ClickDismissSummary = false
  /\ exportContent (clearAll true s) = []
  /\ appState (clearAll true s) = appState s
  /\ transcribing (clearAll true s) = transcribing s
  /\ summarizing (clearAll true s) = summarizing s
  /\ answering (clearAll true s) = answering s
  /\ clearAll false s = s.
Proof.
  destruct s; unfold enabled, hasContent; simpl.
  split_and!; intros; try done; by rewrite ?andb_false_r.
Qed.

(** X3. Summarize with no segment in the store does nothing, also when the
    control is drawn because a summary is left: no call is made and the
    phase stays. *)
Theorem handleSummarize_empty s :
  segments s = [] -> step ClickSummarize s = s.
Proof. simpl. unfold handleSummarize. by intros ->. Qed.

(** A store whose only segment was deleted after it was summarized. *)
Lemma handleSummarize_empty_witness :
  (reachable
     (exec [FileChosen (Some smallFile);
            TranscriptionSettled 0 (Response (Some (lit "salam")))
              1700000000000 1700000000000;
            ClickSummarize;
            SummarySettled 0 (Response (Some (lit "khulasa")));
            ClickDelete (lit "1700000000000")] initial)
   /\ enabled
        (exec [FileChosen (Some smallFile);
               TranscriptionSettled 0 (Response (Some (lit "salam")))
                 1700000000000 1700000000000;
               ClickSummarize;
               SummarySettled 0 (Response (Some (lit "khulasa")));
               ClickDelete (lit "1700000000000")] initial)
        ClickSummarize = true
   /\ segments
        (exec [FileChosen (Some smallFile);
               TranscriptionSettled 0 (Response (Some (lit "salam")))
                 1700000000000 1700000000000;
               ClickSummarize;
               SummarySettled 0 (Response (Some (lit "khulasa")));
               ClickDelete (lit "1700000000000")] initial) = [])
  /\ step ClickSummarize
       (exec [FileChosen (Some smallFile);
              TranscriptionSettled 0 (Response (Some (lit "salam")))
                1700000000000 1700000000000;
              ClickSummarize;
              SummarySettled 0 (Response (Some (lit "khulasa")));
              ClickDelete (lit "1700000000000")] initial)
     = exec [FileChosen (Some smallFile);
             TranscriptionSettled 0 (Response (Some (lit "salam")))
               1700000000000 1700000000000;
             ClickSummarize;
             SummarySettled 0 (Response (Some (lit "khulasa")));
             ClickDelete (lit "1700000000000")] initial.
Proof.
  assert (Hr : reachable
     (exec [FileChosen (Some smallFile);
            TranscriptionSettled 0 (Response (Some (lit "salam")))
              1700000000000 1700000000000;
            ClickSummarize;
            SummarySettled 0 (Response (Some (lit "khulasa")));
            ClickDelete (lit "1700000000000")] initial)).
  { apply (run_reachable
             [FileChosen (Some smallFile);
              TranscriptionSettled 0 (Response (Some (lit "salam")))
                1700000000000 1700000000000;
              ClickSummarize;
              SummarySettled 0 (Response (Some (lit "khulasa")));
              ClickDelete (lit "1700000000000")] initial);
      [constructor|by_running]. }
  assert (Hempty : segments
        (exec [FileChosen (Some smallFile);
               TranscriptionSettled 0 (Response (Some (lit "salam")))
                 1700000000000 1700000000000;
               ClickSummarize;
               SummarySettled 0 (Response (Some (lit "khulasa")));
               ClickDelete (lit "1700000000000")] initial) = []) by by_running.
  split; [split; [exact Hr|split; [by_running|exact Hempty]]|].
  apply (handleSummarize_empty _ Hempty).
Defined.

(** * Further properties *)

(** ** [String.prototype.trim] as the service uses it *)

Lemma trimStart_split s :
  exists l, s = l ++ trimStart s /\ blank l.
Proof.
  induction s as [|c s (l & Hs & Hl)]; [exists []; split; [done|constructor]|].
  simpl. destruct (isWhiteSpace c) eqn:Hc.
  - exists (c :: l). split; [by rewrite Hs at 1|by constructor].
  - exists []. split; [done|constructor].
Qed.

Lemma trimStart_clean s : startsClean (trimStart s) = true.
Proof.
  induction s as [|c s IH]; [done|]. simpl.
  destruct (isWhiteSpace c) eqn:Hc; [done|]. simpl. by rewrite Hc.
Qed.

Lemma trimStart_fixed s : startsClean s = true -> trimStart s = s.
Proof.
  destruct s as [|c s]; [done|]. simpl. by destruct (isWhiteSpace c).
Qed.

Lemma trimStart_blank s : blank s -> trimStart s = [].
Proof. induction 1 as [|c s Hc _ IH]; [done|]. simpl. by rewrite Hc. Qed.

(** [trim s] is [s] without a blank prefix and a blank suffix, and is
    trimmed. *)
Lemma trim_split s :
  exists l r, s = l ++ trim s ++ r /\ blank l /\ blank r.
Proof.
  destruct (trimStart_split s) as (l & Hs & Hl).
  destruct (trimStart_split (reverse (trimStart s))) as (r & Hr & Hbr).
  exists l, (reverse r). split_and!; [|done|].
  - rewrite Hs at 1. f_equal. unfold trim.
    rewrite <- reverse_app, <- Hr. by rewrite reverse_involutive.
  - unfold blank. by apply Forall_reverse.
Qed.

Lemma trim_isTrimmed s : isTrimmed (trim s) = true.
Proof.
  unfold isTrimmed, trim. rewrite reverse_involutive, trimStart_clean, andb_true_r.
  pose proof (trimStart_clean s) as Hclean.
  destruct (trimStart_split (reverse (trimStart s))) as (r & Hr & _).
  apply (f_equal reverse) in Hr. rewrite reverse_involutive, reverse_app in Hr.
  destruct (reverse (trimStart (reverse (trimStart s)))) as [|c t]; [done|].
  rewrite Hr in Hclean. done.
Qed.

Lemma trim_fixed s : isTrimmed s = true -> trim s = s.
Proof.
  unfold isTrimmed, trim. intros [Hs Hr]%andb_prop.
  by rewrite (trimStart_fixed s), (trimStart_fixed (reverse s)), reverse_involutive.
Qed.

Lemma trim_blank s : blank s -> trim s = [].
Proof. intros Hs. unfold trim. by rewrite (trimStart_blank s). Qed.

Lemma transcribe_fulfilled_trimmed reply t :
  transcribeAudioToUrdu reply = Fulfilled t -> isTrimmed t = true.
Proof.
  destruct reply as [|[[|c text]|]]; simpl; try done.
  intros [= <-]. apply trim_isTrimmed.
Qed.

(** X4. [transcribeAudioToUrdu] rejects exactly when the call throws or
    the response text is absent or empty.  What it returns is the response
    text without the white space around it, and is itself trimmed.  A
    response of white space only is not rejected: it returns the empty
    string. *)
Theorem transcribeAudioToUrdu_result reply :
  (transcribeAudioToUrdu reply = Rejected
   <-> reply = Thrown \/ exists text, reply = Response text /\ falsy text = true)
  /\ (forall t, transcribeAudioToUrdu reply = Fulfilled t ->
        isTrimmed t = true
        /\ trim t = t
        /\ exists text l r,
             reply = Response (Some text) /\ text = l ++ t ++ r
             /\ blank l /\ blank r)
  /\ (forall text, text <> [] -> blank text ->
        transcribeAudioToUrdu (Response (Some text)) = Fulfilled []).
Proof.
  split_and!.
  - destruct reply as [|[[|c text]|]]; simpl; split; try done; eauto.
    + intros [|(text' & [= <-] & ?)]; done.
  - intros t. destruct reply as [|[[|c text]|]]; simpl; try done.
    intros [= <-]. split_and!.
    + apply trim_isTrimmed.
    + apply trim_fixed, trim_isTrimmed.
    + destruct (trim_split (c :: text)) as (l & r & Hs & Hl & Hr).
      by exists (c :: text), l, r.
  - intros [|c text] Hne Hblank; [done|]. simpl. by rewrite trim_blank.
Qed.

(** A response of two spaces. *)
Lemma transcribeAudioToUrdu_result_witness :
  (lit "  " <> [] /\ blank (lit "  "))
  /\ transcribeAudioToUrdu (Response (Some (lit "  "))) = Fulfilled [].
Proof.
  assert (Hne : lit "  " <> []) by discriminate.
  assert (Hblank : blank (lit "  ")) by (by repeat constructor).
  split; [done|].
  exact (proj2 (proj2 (transcribeAudioToUrdu_result Thrown)) _ Hne Hblank).
Defined.

(** ** Invariants of the store and the chat log *)

Lemma trimmed_step e s :
  Forall (λ x, isTrimmed (seg_text x) = true) (segments s) ->
  Forall (λ x, isTrimmed (seg_text x) = true) (segments (step e s)).
Proof.
  intros H. destruct e; destruct s; handler_cases.
  - apply list.Forall_forall. intros x [_ Hx]%list_elem_of_filter.
    by apply (proj1 (list.Forall_forall _ _) H).
  - apply Forall_app; split; [done|]. repeat constructor. simpl.
    by eapply transcribe_fulfilled_trimmed.
Qed.

(** X5. In every reachable state no stored segment's text begins or ends
    with white space. *)
Theorem stored_texts_are_trimmed s :
  reachable s ->
  Forall (λ x, isTrimmed (seg_text x) = true) (segments s).
Proof.
  induction 1; [constructor|by apply trimmed_step].
Qed.

(** A transcription that answers with white space around the text. *)
Lemma stored_texts_are_trimmed_witness :
  reachable
    (exec [FileChosen (Some smallFile);
           TranscriptionSettled 0 (Response (Some (lit "  salam ")))
             1700000000000 1700000000000] initial)
  /\ seg_text <$>
       segments
         (exec [FileChosen (Some smallFile);
                TranscriptionSettled 0 (Response (Some (lit "  salam ")))
                  1700000000000 1700000000000] initial)
     = [lit "salam"]
  /\ Forall (λ x, isTrimmed (seg_text x) = true)
       (segments
          (exec [FileChosen (Some smallFile);
                 TranscriptionSettled 0 (Response (Some (lit "  salam ")))
                   1700000000000 1700000000000] initial)).
Proof.
  assert (Hr : reachable
    (exec [FileChosen (Some smallFile);
           TranscriptionSettled 0 (Response (Some (lit "  salam ")))
             1700000000000 1700000000000] initial)).
  { apply (run_reachable
             [FileChosen (Some smallFile);
              TranscriptionSettled 0 (Response (Some (lit "  salam ")))
                1700000000000 1700000000000] initial);
      [constructor|by_running]. }
  split; [exact Hr|]. split; [by_running|].
  apply (stored_texts_are_trimmed _ Hr).
Defined.

Lemma chatWithTranscript_nonempty reply t :
  chatWithTranscript reply = Fulfilled t -> t <> [].
Proof. destruct reply as [|[[|c text]|]]; simpl; by intros [= <-]. Qed.

Lemma chat_texts_step e s :
  Forall (λ m, msg_text m <> []
               /\ (msg_role m = user -> trim (msg_text m) <> []))
    (chatMessages s) ->
  Forall (λ m, msg_text m <> []
               /\ (msg_role m = user -> trim (msg_text m) <> []))
    (chatMessages (step e s)).
Proof.
  intros H. destruct e; destruct s; handler_cases; try by constructor.
  - (* a question is submitted *)
    apply Forall_app; split; [done|]. repeat constructor; simpl.
    all: match goal with Hin : trim _ = _ :: _ |- _ => rename Hin into Hinput end.
    + intros ->. by vm_compute in Hinput.
    + intros _ Heq. by rewrite Heq in Hinput.
  - (* its answer arrives *)
    apply Forall_app; split; [done|]. repeat constructor; simpl; [|done].
    by eapply chatWithTranscript_nonempty.
  - (* the call failed *)
    apply Forall_app; split; [done|]. by repeat constructor.
Qed.

(** X6. In every reachable state each message of the chat log has a
    non-empty text, and each user message a text that is not blank: a blank
    input is never sent, and the assistant's text is the answer, the stand-in
    for an empty answer, or the apology. *)
Theorem chat_log_texts s :
  reachable s ->
  Forall (λ m, msg_text m <> []
               /\ (msg_role m = user -> trim (msg_text m) <> []))
    (chatMessages s).
Proof.
  induction 1; [constructor|by apply chat_texts_step].
Qed.

(** A blank submission, a question, and an answer without a text. *)
Lemma chat_log_texts_witness :
  reachable
    (exec [ChatTyped (lit "  "); ChatSubmitted 1700000000000 1700000000000;
           ChatTyped (lit "What was discussed?");
           ChatSubmitted 1700000000100 1700000000100;
           AnswerSettled 0 (Response None) 1700000000900 1700000000900]
       initial)
  /\ msg_text <$>
       chatMessages
         (exec [ChatTyped (lit "  "); ChatSubmitted 1700000000000 1700000000000;
                ChatTyped (lit "What was discussed?");
                ChatSubmitted 1700000000100 1700000000100;
                AnswerSettled 0 (Response None) 1700000000900 1700000000900]
            initial)
     = [lit "What was discussed?"; lit "I could not generate an answer."]
  /\ Forall (λ m, msg_text m <> []
                  /\ (msg_role m = user -> trim (msg_text m) <> []))
       (chatMessages
          (exec [ChatTyped (lit "  "); ChatSubmitted 1700000000000 1700000000000;
                 ChatTyped (lit "What was discussed?");
                 ChatSubmitted 1700000000100 1700000000100;
                 AnswerSettled 0 (Response None) 1700000000900 1700000000900]
             initial)).
Proof.
  assert (Hr : reachable
    (exec [ChatTyped (lit "  "); ChatSubmitted 1700000000000 1700000000000;
           ChatTyped (lit "What was discussed?");
           ChatSubmitted 1700000000100 1700000000100;
           AnswerSettled 0 (Response None) 1700000000900 1700000000900]
       initial)).
  { apply (run_reachable
             [ChatTyped (lit "  "); ChatSubmitted 1700000000000 1700000000000;
              ChatTyped (lit "What was discussed?");
              ChatSubmitted 1700000000100 1700000000100;
              AnswerSettled 0 (Response None) 1700000000900 1700000000900]
             initial); [constructor|by_running]. }
  split; [exact Hr|]. split; [by_running|].
  apply (chat_log_texts _ Hr).
Defined.

(** ** What the events leave alone *)

(** X7. Only a settled transcription adds a segment: after any other
    event the segments are the ones before, in order, less the deleted ones;
    a settled transcription keeps them all and adds at most one at the
    end. *)
Theorem segments_grow_by_transcription_only e s :
  (forall i reply idNow tsNow, e <> TranscriptionSettled i reply idNow tsNow) ->
  segments (step e s) `sublist_of` segments s.
Proof.
  intros He. destruct e; destruct s; handler_cases.
  - apply sublist_filter.
  - apply sublist_nil_l.
  - by destruct (He i reply idNow tsNow).
Qed.

(** Deleting the first of two segments. *)
Lemma segments_grow_by_transcription_only_witness :
  (forall i reply idNow tsNow,
     ClickDelete (lit "1700000000000")
     <> TranscriptionSettled i reply idNow tsNow)
  /\ segments (step (ClickDelete (lit "1700000000000")) (exec finalizeTrace initial))
     `sublist_of` segments (exec finalizeTrace initial).
Proof.
  assert (He : forall i reply idNow tsNow,
             ClickDelete (lit "1700000000000")
             <> TranscriptionSettled i reply idNow tsNow) by done.
  split; [exact He|].
  apply (segments_grow_by_transcription_only _ _ He).
Defined.

(** X8. The controls of the store and the chat, and the chat's answer,
    leave the recording alone: the phase, the recorder, the buffer, the
    stream, and what is being acquired, scheduled or transcribed are as
    before. *)
Theorem store_and_chat_leave_recording e s :
  storeOrChat e ->
  appState (step e s) = appState s
  /\ mediaRecorderRef (step e s) = mediaRecorderRef s
  /\ recorders (step e s) = recorders s
  /\ audioChunksRef (step e s) = audioChunksRef s
  /\ streamRef (step e s) = streamRef s
  /\ streams (step e s) = streams s
  /\ acquiring (step e s) = acquiring s
  /\ timers (step e s) = timers s
  /\ transcribing (step e s) = transcribing s
  /\ errorMsg (step e s) = errorMsg s.
Proof.
  intros He. destruct e; try done; destruct s; handler_cases.
Qed.

(** A question asked while a recording is paused. *)
Lemma store_and_chat_leave_recording_witness :
  storeOrChat (ChatSubmitted 1700000000100 1700000000100)
  /\ appState
       (step (ChatSubmitted 1700000000100 1700000000100)
          (exec (startTrace ++ [ClickPause; ChatTyped (lit "What was discussed?")])
             initial))
     = PAUSED.
Proof.
  assert (He : storeOrChat (ChatSubmitted 1700000000100 1700000000100))
    by exact I.
  split; [exact He|].
  exact (eq_trans
           (proj1 (store_and_chat_leave_recording _
                     (exec (startTrace
                            ++ [ClickPause; ChatTyped (lit "What was discussed?")])
                        initial) He))
           eq_refl).
Defined.

(** ** Pause and resume *)

Lemma alter_fixed {A} (f : A -> A) (l : list A) i x :
  l !! i = Some x -> f x = x -> alter f i l = l.
Proof.
  intros Hi Hx. apply list_eq. intros j.
  rewrite list_lookup_alter. destruct (decide (i = j)) as [<-|]; [|done].
  by rewrite Hi; simpl; rewrite Hx.
Qed.

(** X9. Pausing a recording and resuming it gives back the state before,
    the buffer included, and so does resuming a paused recording and pausing
    it again.  [pauseRecording] does nothing unless the recorder is
    recording, [resumeRecording] nothing unless it is paused, and neither
    does anything when there is no recorder. *)
Theorem pause_resume_round_trip s :
  (forall rc, currentRecorder s = Some rc ->
     (rec_state rc = recording -> appState s = RECORDING ->
        appState (pauseRecording s) = PAUSED
        /\ audioChunksRef (pauseRecording s) = audioChunksRef s
        /\ resumeRecording (pauseRecording s) = s)
     /\ (rec_state rc = paused -> appState s = PAUSED ->
          appState (resumeRecording s) = RECORDING
          /\ audioChunksRef (resumeRecording s) = audioChunksRef s
          /\ pauseRecording (resumeRecording s) = s)
     /\ (rec_state rc <> recording -> pauseRecording s = s)
     /\ (rec_state rc <> paused -> resumeRecording s = s))
  /\ (currentRecorder s = None ->
       pauseRecording s = s /\ resumeRecording s = s).
Proof.
  split.
  - intros rc Hrc. destruct s; unfold currentRecorder in Hrc; simpl in *.
    destruct mediaRecorderRef0 as [n|]; [|done].
    destruct rc as [st mime sid on q]. split_and!.
    + intros Hst Hph. simpl in *. subst.
      unfold pauseRecording, resumeRecording, currentRecorder, onCurrentRecorder.
      simpl. rewrite Hrc. simpl. rewrite list_lookup_alter_eq, Hrc. simpl.
      unfold setAppState, setRecorders. simpl.
      split_and!; try done. f_equal.
      rewrite list_alter_alter_eq. by apply (alter_fixed _ _ _ _ Hrc).
    + intros Hst Hph. simpl in *. subst.
      unfold pauseRecording, resumeRecording, currentRecorder, onCurrentRecorder.
      simpl. rewrite Hrc. simpl. rewrite list_lookup_alter_eq, Hrc. simpl.
      unfold setAppState, setRecorders. simpl.
      split_and!; try done. f_equal.
      rewrite list_alter_alter_eq. by apply (alter_fixed _ _ _ _ Hrc).
    + intros Hst. unfold pauseRecording, currentRecorder. simpl. rewrite Hrc.
      simpl in *. by destruct (decide (st = recording)).
    + intros Hst. unfold resumeRecording, currentRecorder. simpl. rewrite Hrc.
      simpl in *. by destruct (decide (st = paused)).
  - intros Hnone. unfold pauseRecording, resumeRecording. by rewrite Hnone.
Qed.

(** The recording [startTrace] starts, with one chunk buffered. *)
Lemma pause_resume_round_trip_witness :
  (currentRecorder (exec (startTrace ++ [DataAvailable 0 chunk1]) initial)
   = Some firstRecorder
   /\ rec_state firstRecorder = recording
   /\ appState (exec (startTrace ++ [DataAvailable 0 chunk1]) initial) = RECORDING)
  /\ resumeRecording
       (pauseRecording (exec (startTrace ++ [DataAvailable 0 chunk1]) initial))
     = exec (startTrace ++ [DataAvailable 0 chunk1]) initial.
Proof.
  assert (H1 : currentRecorder (exec (startTrace ++ [DataAvailable 0 chunk1]) initial)
               = Some firstRecorder) by by_running.
  assert (H2 : rec_state firstRecorder = recording) by reflexivity.
  assert (H3 : appState (exec (startTrace ++ [DataAvailable 0 chunk1]) initial)
               = RECORDING) by by_running.
  split; [done|].
  exact (proj2 (proj2 (proj1 (proj1 (pause_resume_round_trip _) _ H1) H2 H3))).
Defined.

(** ** Start that fails *)

(** X10. When the microphone is refused the phase is Error and the
    microphone message is shown; no stream and no recorder is created and
    the refs, the buffer and the store are as before; Start is offered
    again.  When the microphone is granted but the platform records neither
    media type, the phase is Error with the same message and no recorder is
    created, yet the stream just acquired is held open; the next Start
    releases it. *)
Theorem start_failure s :
  (appState (step MicDenied s) = ERROR
   /\ errorMsg (step MicDenied s) = Some (lit "Could not access microphone.")
   /\ streams (step MicDenied s) = streams s
   /\ streamRef (step MicDenied s) = streamRef s
   /\ recorders (step MicDenied s) = recorders s
   /\ mediaRecorderRef (step MicDenied s) = mediaRecorderRef s
   /\ audioChunksRef (step MicDenied s) = audioChunksRef s
   /\ segments (step MicDenied s) = segments s
   /\ enabled (step MicDenied s) ClickStart = mounted s)
  /\ (appState (step (MicGranted false false) s) = ERROR
      /\ errorMsg (step (MicGranted false false) s)
         = Some (lit "Could not access microphone.")
      /\ recorders (step (MicGranted false false) s) = recorders s
      /\ mediaRecorderRef (step (MicGranted false false) s) = mediaRecorderRef s
      /\ audioChunksRef (step (MicGranted false false) s) = audioChunksRef s
      /\ deviceOpen (step (MicGranted false false) s) = true
      /\ enabled (step (MicGranted false false) s) ClickStart = mounted s
      /\ deviceOpen (step ClickStart (step (MicGranted false false) s)) = false).
Proof.
  destruct s; split; split_and!; try done.
  - unfold enabled. simpl. by rewrite andb_true_r.
  - unfold deviceOpen. simpl. apply bool_decide_eq_true.
    by rewrite lookup_app_r, Nat.sub_diag.
  - unfold enabled. simpl. by rewrite andb_true_r.
  - unfold deviceOpen. simpl. apply bool_decide_eq_false.
    rewrite list_lookup_insert_eq; [done|]. rewrite length_app. simpl. lia.
Qed.

(** ** Recorders *)

Lemma finished_alter (f : MediaRecorder -> MediaRecorder) (n r : nat)
    (l : list MediaRecorder) rc :
  l !! r = Some rc -> finished rc ->
  (forall rc', finished rc' -> finished (f rc')) ->
  exists rc', alter f n l !! r = Some rc' /\ finished rc'.
Proof.
  intros Hr Hfin Hf. rewrite list_lookup_alter.
  destruct (decide (n = r)) as [->|]; [|by exists rc].
  rewrite Hr. simpl. exists (f rc). auto.
Qed.

Lemma finished_recStop rc : finished rc -> finished (recStop rc).
Proof. intros [Hst Hq]. unfold recStop. by rewrite Hst. Qed.

Lemma finished_step e s r rc :
  recorders s !! r = Some rc -> finished rc ->
  exists rc', recorders (step e s) !! r = Some rc' /\ finished rc'.
Proof.
  intros Hr Hfin.
  assert (Hon : forall h rc', finished rc' -> finished (recSetOnstop h rc'))
    by (by intros ? ? []).
  assert (Hq : forall rc', finished rc' -> finished (recSetStopQueued false rc'))
    by (by intros ? []).
  assert (Hends : forall sid (l : list MediaRecorder),
            l !! r = Some rc ->
            exists rc', (recTracksEnded sid <$> l) !! r = Some rc' /\ finished rc').
  { intros sid l Hl. rewrite list_lookup_fmap, Hl. simpl.
    exists (recTracksEnded sid rc). split; [done|]. unfold recTracksEnded.
    destruct (decide _); [by apply finished_recStop|done]. }
  assert (Hguard : forall st n rc0,
            recorders s !! n = Some rc0 -> rec_state rc0 <> inactive ->
            exists rc', alter (recSetState st) n (recorders s) !! r = Some rc'
                        /\ finished rc').
  { intros st n rc0 Hn Hact. rewrite list_lookup_alter.
    destruct (decide (n = r)) as [->|]; [|by exists rc].
    rewrite Hr in Hn. injection Hn as <-. by destruct Hfin. }
  destruct e; destruct s; simpl in *; unfold_handlers; simpl in *.
  all: repeat (case_match; simpl in *; simplify_eq).
  all: try (by exists rc).
  all: try (by apply Hends).
  all: try (eapply Hguard; [eassumption|congruence]).
  all: try (eapply finished_alter; [|done|done];
            eapply finished_alter; [done|done|by apply finished_recStop || done]).
  all: try (edestruct (finished_alter (recSetOnstop None)) as (rc1 & Hrc1 & Hf1);
            [exact Hr|exact Hfin|by apply Hon|];
            eapply finished_alter; [exact Hrc1|exact Hf1|apply finished_recStop]).
  all: try (edestruct (finished_alter (recSetOnstop (Some resolveStop)))
              as (rc1 & Hrc1 & Hf1);
            [exact Hr|exact Hfin|by apply Hon|];
            eapply finished_alter; [exact Hrc1|exact Hf1|apply finished_recStop]).
  all: try (eapply finished_alter; [exact Hr|exact Hfin|by apply Hq]).
  all: exists rc; split; [|done].
  all: assert (r < length recorders0)%nat by (by eapply lookup_lt_Some).
  all: rewrite list_lookup_alter_ne by lia.
  all: by rewrite lookup_app_l.
Qed.

(** X11. A recorder that is inactive and has fired its stop stays so
    whatever happens afterwards: it never fires stop again and never delivers
    another chunk.  So one Finish hands at most one audio object to the
    transcription. *)
Theorem finished_recorder_stays_finished evs s r rc :
  recorders s !! r = Some rc ->
  finished rc ->
  stopQueued r (exec evs s) = false
  /\ delivering r (exec evs s) = false
  /\ enabled (exec evs s) (RecorderStopped r) = false
  /\ (forall data, enabled (exec evs s) (DataAvailable r data) = false).
Proof.
  revert s rc. induction evs as [|e evs IH]; intros s rc Hr Hfin.
  - destruct Hfin as [Hst Hq]. simpl.
    unfold enabled, stopQueued, delivering. rewrite Hr, Hst, Hq. simpl.
    by rewrite andb_false_r.
  - rewrite exec_cons.
    destruct (finished_step e s r rc Hr Hfin) as (rc' & Hr' & Hfin').
    by apply (IH _ rc').
Qed.

(** The recorder of a finalized recording, and a new recording after it. *)
Lemma finished_recorder_stays_finished_witness :
  (recorders (exec finalizeTrace initial) !! 0%nat
   = Some (mkRecorder inactive opus 0 (Some resolveStop) false)
   /\ finished (mkRecorder inactive opus 0 (Some resolveStop) false))
  /\ stopQueued 0
       (exec [ClickStart; MicGranted true false; ClickFinish]
          (exec finalizeTrace initial))
     = false.
Proof.
  assert (H1 : recorders (exec finalizeTrace initial) !! 0%nat
               = Some (mkRecorder inactive opus 0 (Some resolveStop) false))
    by by_running.
  assert (H2 : finished (mkRecorder inactive opus 0 (Some resolveStop) false))
    by done.
  split; [done|].
  exact (proj1 (finished_recorder_stays_finished
                  [ClickStart; MicGranted true false; ClickFinish] _ _ _ H1 H2)).
Defined.

(** ** The audio object's media type *)

Lemma recordedType_step e s :
  Forall (λ rc, recordedType (rec_mimeType rc)) (recorders s) ->
  Forall (λ rc, recordedType (rec_mimeType rc)) (recorders (step e s)).
Proof.
  intros H.
  assert (Hends : forall sid,
            Forall (λ rc, recordedType (rec_mimeType rc))
              (recTracksEnded sid <$> recorders s)).
  { intros sid. apply Forall_fmap. eapply list.Forall_impl; [exact H|].
    intros rc Hrc. simpl. unfold recTracksEnded, recStop.
    destruct (decide _); [|done]. by destruct (rec_state rc). }
  assert (Halter : forall f n l,
            (forall rc, rec_mimeType (f rc) = rec_mimeType rc) ->
            Forall (λ rc, recordedType (rec_mimeType rc)) l ->
            Forall (λ rc : MediaRecorder, recordedType (rec_mimeType rc))
              (alter f n l)).
  { intros f n l Hf Hl. apply Forall_alter; [done|].
    intros rc _ Hrc. by rewrite Hf. }
  assert (Hstop : forall rc, rec_mimeType (recStop rc) = rec_mimeType rc).
  { intros rc. unfold recStop. by destruct (rec_state rc). }
  destruct e; destruct s; simpl in *; unfold_handlers; simpl in *.
  all: repeat (case_match; simpl in *; simplify_eq).
  all: try done.
  all: try (by apply Hends).
  all: repeat (apply Halter; [done|]); try done.
  all: apply Forall_app; split; [done|]; apply Forall_singleton; simpl.
  - by left.
  - by right.
Qed.

(** X12. In every reachable state that has a recorder, the audio object
    [stopAndProcess] would build is typed with one of the two media types
    [initRecording] chooses between; the fall-back type ['audio/webm'] is
    never used. *)
Theorem audioBlob_type s :
  reachable s ->
  is_Some (mediaRecorderRef s) ->
  recordedType (type (audioBlob s)).
Proof.
  intros Hs [r Hr].
  assert (Hall : Forall (λ rc, recordedType (rec_mimeType rc)) (recorders s)).
  { clear Hr. induction Hs; [constructor|by apply recordedType_step]. }
  apply reachable_wellFormed in Hs as [Hrec _ _ _ _ _ _].
  destruct (Hrec r Hr) as [rc Hrc].
  unfold audioBlob, currentRecorder. rewrite Hr, Hrc. simpl.
  assert (Hty : recordedType (rec_mimeType rc)).
  { eapply (proj1 (list.Forall_forall _ _) Hall). by eapply list_elem_of_lookup_2. }
  destruct Hty as [Heq|Heq]; rewrite Heq; [left|right]; by vm_compute.
Qed.

(** A recording on a platform that records only ['audio/mp4']. *)
Lemma audioBlob_type_witness :
  (reachable (exec [ClickStart; MicGranted false true; DataAvailable 0 chunk1] initial)
   /\ is_Some (mediaRecorderRef
                 (exec [ClickStart; MicGranted false true; DataAvailable 0 chunk1]
                    initial)))
  /\ type (audioBlob
             (exec [ClickStart; MicGranted false true; DataAvailable 0 chunk1]
                initial))
     = lit "audio/mp4"
  /\ recordedType
       (type (audioBlob
                (exec [ClickStart; MicGranted false true; DataAvailable 0 chunk1]
                   initial))).
Proof.
  assert (Hr : reachable
    (exec [ClickStart; MicGranted false true; DataAvailable 0 chunk1] initial)).
  { apply (run_reachable
             [ClickStart; MicGranted false true; DataAvailable 0 chunk1] initial);
      [constructor|by_running]. }
  assert (Href : is_Some (mediaRecorderRef
    (exec [ClickStart; MicGranted false true; DataAvailable 0 chunk1] initial)))
    by (by exists 0%nat).
  split; [done|]. split; [by_running|].
  exact (audioBlob_type _ Hr Href).
Defined.

(** ** Segment ids under an advancing clock *)

Lemma increasingFrom_weaken l : forall b b',
  b' <= b -> increasingFrom b l -> increasingFrom b' l.
Proof.
  destruct l as [|n l]; [done|]. simpl. intros b b' Hb [Hn Hl].
  split; [lia|done].
Qed.

Lemma sublist_keeps_Forall {A} (P : A -> Prop) (l k : list A) :
  l `sublist_of` k -> Forall P k -> Forall P l.
Proof.
  induction 1 as [|x l k _ IH|x l k _ IH]; intros Hk; [done| |].
  - inversion Hk; subst. constructor; auto.
  - inversion Hk; subst. auto.
Qed.

Lemma ids_below_step e s b :
  (forall i reply idNow tsNow, e <> TranscriptionSettled i reply idNow tsNow) ->
  NoDup (seg_id <$> segments s) ->
  Forall (λ x, exists n, seg_id x = toString n /\ n < b) (segments s) ->
  NoDup (seg_id <$> segments (step e s))
  /\ Forall (λ x, exists n, seg_id x = toString n /\ n < b) (segments (step e s)).
Proof.
  intros He Hnodup Hall.
  assert (Hsub : segments (step e s) `sublist_of` segments s).
  { destruct e; destruct s; handler_cases.
    - apply sublist_filter.
    - apply sublist_nil_l.
    - by destruct (He i reply idNow tsNow). }
  split.
  - eapply sublist_NoDup; [exact Hnodup|by apply fmap_sublist].
  - by apply (sublist_keeps_Forall _ _ _ Hsub).
Qed.

Lemma ids_below_exec evs : forall s b,
  NoDup (seg_id <$> segments s) ->
  Forall (λ x, exists n, seg_id x = toString n /\ n < b) (segments s) ->
  increasingFrom b (segmentClock evs) ->
  NoDup (seg_id <$> segments (exec evs s)).
Proof.
  induction evs as [|e evs IH]; intros s b Hnodup Hall Hclock; [done|].
  rewrite exec_cons.
  destruct e; simpl in Hclock.
  all: try (match goal with
            | Hb : Forall _ (segments ?s0) |- context [step ?e ?s0] =>
                assert (He : forall i reply idNow tsNow,
                          e <> TranscriptionSettled i reply idNow tsNow) by done;
                destruct (ids_below_step e s0 _ He Hnodup Hb) as [Hn' Ha'];
                by eapply IH
            end).
  destruct Hclock as [Hb Hclock].
  apply (IH _ (idNow + 1)); [| |done].
  - simpl. destruct (transcribeAudioToUrdu reply) as [text|]; simpl; [|done].
    rewrite fmap_app. apply list.NoDup_app. split_and!; [done| |apply NoDup_singleton].
    intros x Hx ->%list_elem_of_singleton.
    apply list_elem_of_fmap in Hx as (y & Hy & Hin).
    apply (proj1 (list.Forall_forall _ _) Hall) in Hin as (n & Hn & Hlt).
    rewrite Hn in Hy. apply toString_inj in Hy. lia.
  - simpl. destruct (transcribeAudioToUrdu reply) as [text|]; simpl.
    + apply Forall_app; split.
      * eapply list.Forall_impl; [exact Hall|].
        intros x (n & Hn & Hlt). exists n. split; [done|lia].
      * apply Forall_singleton. exists idNow. split; [done|lia].
    + eapply list.Forall_impl; [exact Hall|].
      intros x (n & Hn & Hlt). exists n. split; [done|lia].
Qed.

(** X13. From the initial state, whatever happens, if every transcription
    settles at a clock reading larger than the one before, the stored
    segments have pairwise distinct ids. *)
Theorem advancing_clock_gives_distinct_ids evs :
  increasingFrom 0 (segmentClock evs) ->
  NoDup (seg_id <$> segments (exec evs initial)).
Proof.
  intros Hclock. apply (ids_below_exec evs initial 0); [constructor|constructor|done].
Qed.

(** The trace of [sameClockTrace] with the second transcription settling one
    millisecond later. *)
Lemma advancing_clock_gives_distinct_ids_witness :
  increasingFrom 0
    (segmentClock
       [ClickStart; FileChosen (Some smallFile); MicGranted true false;
        ClickFinish; DataAvailable 0 chunk1; RecorderStopped 0;
        TranscriptionSettled 0 (Response (Some (lit "first")))
          1700000000000 1700000000000;
        TranscriptionSettled 0 (Response (Some (lit "second")))
          1700000000001 1700000000001])
  /\ NoDup
       (seg_id <$>
          segments
            (exec [ClickStart; FileChosen (Some smallFile); MicGranted true false;
                   ClickFinish; DataAvailable 0 chunk1; RecorderStopped 0;
                   TranscriptionSettled 0 (Response (Some (lit "first")))
                     1700000000000 1700000000000;
                   TranscriptionSettled 0 (Response (Some (lit "second")))
                     1700000000001 1700000000001] initial)).
Proof.
  assert (Hclock : increasingFrom 0
    (segmentClock
       [ClickStart; FileChosen (Some smallFile); MicGranted true false;
        ClickFinish; DataAvailable 0 chunk1; RecorderStopped 0;
        TranscriptionSettled 0 (Response (Some (lit "first")))
          1700000000000 1700000000000;
        TranscriptionSettled 0 (Response (Some (lit "second")))
          1700000000001 1700000000001])).
  { simpl. split_and!; [discriminate|discriminate|exact I]. }
  split; [exact Hclock|].
  exact (advancing_clock_gives_distinct_ids _ Hclock).
Defined.

(** ** Export *)

Lemma join_lookup sep (l : list jsstring) : forall i x,
  l !! i = Some x -> exists pre post, join sep l = pre ++ x ++ post.
Proof.
  induction l as [|y l IH]; intros i x Hi; [done|].
  destruct i as [|i]; simpl in Hi.
  - injection Hi as ->. destruct l as [|z l].
    + exists [], []. simpl. by rewrite app_nil_r.
    + by exists [], (sep ++ join sep (z :: l)).
  - destruct (IH i x Hi) as (pre & post & Hjoin).
    destruct l as [|z l]; [done|].
    exists (y ++ sep ++ pre), post.
    change (join sep (y :: z :: l)) with (y ++ sep ++ join sep (z :: l)).
    by rewrite Hjoin, <- !app_assoc.
Qed.

Lemma exportContent_segment s i x :
  segments s !! i = Some x ->
  exists pre post, exportContent s = pre ++ exportSegment i x ++ post.
Proof.
  intros Hi.
  assert (Hblock : imap exportSegment (segments s) !! i = Some (exportSegment i x))
    by (by rewrite list_lookup_imap, Hi).
  destruct (join_lookup (LF ++ LF) _ _ _ Hblock) as (pre & post & Hjoin).
  unfold exportContent. rewrite Hjoin.
  destruct (summary s) as [[|c sm]|]; [by exists pre, post| |by exists pre, post].
  exists (lit "--- SUMMARY ---" ++ LF ++ (c :: sm) ++ LF ++ LF
          ++ lit "--- TRANSCRIPTS ---" ++ LF ++ pre), post.
  by rewrite <- !app_assoc.
Qed.

(** X14. The exported text holds every stored segment, each as a block
    headed by its position counted from 1, and begins with the summary under
    its heading when there is a non-empty one.  It is empty only when there
    is nothing to export, so it is never empty when the export control is
    drawn.  Share and clipboard receive the same text. *)
Theorem export_holds_the_store s :
  (forall i x, segments s !! i = Some x ->
     exists pre post,
       exportContent s
       = pre ++ (lit "Segment " ++ toString (N.of_nat i + 1) ++ lit ":" ++ LF
                 ++ seg_text x) ++ post)
  /\ (forall c sm, summary s = Some (c :: sm) ->
       exists post,
         exportContent s = lit "--- SUMMARY ---" ++ LF ++ (c :: sm) ++ post)
  /\ (hasContent s = true -> exportContent s <> [])
  /\ (hasContent s = false -> exportContent s = [])
  /\ (forall canShare,
       match handleExport canShare s with
       | Shared _ text | Copied text => text = exportContent s
       end).
Proof.
  split_and!.
  - intros i x Hi. by apply exportContent_segment.
  - intros c sm Hsum. unfold exportContent. rewrite Hsum. eauto.
  - unfold hasContent. intros [Hseg|Hsum]%orb_prop.
    + destruct (segments s) as [|x l] eqn:Hsegs; [done|].
      destruct (exportContent_segment s 0 x) as (pre & post & ->);
        [by rewrite Hsegs|].
      intros Hnil%app_eq_nil. destruct Hnil as [_ Hnil%app_eq_nil].
      by destruct Hnil.
    + unfold exportContent. by destruct (summary s) as [[|c sm]|].
  - unfold hasContent, exportContent. intros [Hseg Hsum]%orb_false_elim.
    apply negb_false_iff, bool_decide_eq_true in Hseg. rewrite Hseg. simpl.
    by destruct (summary s) as [[|c sm]|].
  - by intros [].
Qed.

(** The store after one transcription. *)
Lemma export_holds_the_store_witness :
  hasContent (exec finalizeTrace initial) = true
  /\ exportContent (exec finalizeTrace initial) <> []
  /\ exportContent (exec finalizeTrace initial)
     = lit "Segment 1:" ++ LF ++ lit "salam".
Proof.
  assert (H : hasContent (exec finalizeTrace initial) = true) by by_running.
  split; [exact H|]. split; [|by_running].
  exact (proj1 (proj2 (proj2 (export_holds_the_store _))) H).
Defined.

(** ** Upload, summarize, and their settling *)

(** X15. A file within the limit, chosen and then transcribed, leaves no
    trace among the pending calls: they are the ones before.  The phase is
    Idle, and the store gained one segment with the trimmed text, or is as it
    was with the transcription message shown. *)
Theorem upload_then_settle s file reply idNow tsNow :
  size file <= 500 * 1024 * 1024 ->
  mounted s = true ->
  enabled (handleFileUpload (Some file) s)
    (TranscriptionSettled (length (transcribing s)) reply idNow tsNow) = true
  /\ transcribing
       (step (TranscriptionSettled (length (transcribing s)) reply idNow tsNow)
          (handleFileUpload (Some file) s))
     = transcribing s
  /\ appState
       (step (TranscriptionSettled (length (transcribing s)) reply idNow tsNow)
          (handleFileUpload (Some file) s))
     = IDLE
  /\ match transcribeAudioToUrdu reply with
     | Fulfilled t =>
         segments
           (step (TranscriptionSettled (length (transcribing s)) reply idNow tsNow)
              (handleFileUpload (Some file) s))
         = segments s ++ [mkSegment (toString idNow) t tsNow]
         /\ isTrimmed t = true
     | Rejected =>
         segments
           (step (TranscriptionSettled (length (transcribing s)) reply idNow tsNow)
              (handleFileUpload (Some file) s))
         = segments s
         /\ errorMsg
              (step (TranscriptionSettled (length (transcribing s)) reply idNow
                       tsNow)
                 (handleFileUpload (Some file) s))
            = Some (lit "Transcription failed. Please try again or check file format.")
     end.
Proof.
  intros Hsize%N.ltb_ge Hmounted.
  unfold handleFileUpload. rewrite Hsize.
  destruct s; simpl in *; subst. split_and!.
  - unfold enabled. simpl. apply bool_decide_eq_true.
    rewrite length_app. simpl. lia.
  - destruct (transcribeAudioToUrdu reply); simpl;
      by rewrite (delete_middle transcribing0 []), app_nil_r.
  - by destruct (transcribeAudioToUrdu reply).
  - destruct (transcribeAudioToUrdu reply) as [t|] eqn:Ht; simpl; [|done].
    split; [done|]. by eapply transcribe_fulfilled_trimmed.
Qed.

(** A file of three bytes, from the initial state. *)
Lemma upload_then_settle_witness :
  (size smallFile <= 500 * 1024 * 1024 /\ mounted initial = true)
  /\ transcribing
       (step (TranscriptionSettled (length (transcribing initial))
                (Response (Some (lit " salam "))) 1700000000000 1700000000000)
          (handleFileUpload (Some smallFile) initial))
     = transcribing initial.
Proof.
  assert (H1 : size smallFile <= 500 * 1024 * 1024) by discriminate.
  assert (H2 : mounted initial = true) by reflexivity.
  split; [done|].
  exact (proj1 (proj2 (upload_then_settle initial smallFile
                         (Response (Some (lit " salam ")))
                         1700000000000 1700000000000 H1 H2))).
Defined.



(** ** Restart, followed through *)


